(** * Geometry and curve-evaluation core: Vec2, Rect, Matrix, interpolators,
      arc-length lookup.

    A shallow embedding of the plotting library's numeric core.

    Numbers.  A JavaScript [number] is modelled by an exact rational ([Q]):
    rounding and overflow of IEEE doubles are left out, so every equation
    below is an equation of exact arithmetic, stated up to [Qeq] ([==]).
    The values a rational cannot hold ([undefined], [NaN], [Infinity]) only
    arise from an out-of-range array read or a division by zero; the
    functions that can reach one return [option], with [None] standing for
    that outcome.

    Doubles.  Where rounding or overflow changes an index, a branch or the
    finiteness of a result, the function is embedded once more on binary64
    (module [F64]), and the statements that depend on it are made there. *)

From Stdlib Require Import QArith Qround Qminmax Qpower ZArith List Lia Lqa Bool.
From Stdlib Require SpecFloat.
From Equations Require Import Equations.
Import ListNotations.

Local Open Scope Q_scope.

(** ** Vec2 (src/unnamed/part_000) *)

Module Vec2.

Record t : Type := mk { x : Q; y : Q }.

Definition zero : t := mk 0 0.
Definition one : t := mk 1 1.

Definition components (v : t) : list Q := [x v; y v].

Definition add (v other : t) : t := mk (x v + x other) (y v + y other).

Definition sub (v other : t) : t := mk (x v - x other) (y v - y other).

Definition componentMul (v other : t) : t :=
  mk (x v * x other) (y v * y other).

(** [other.x === 0 ? 0 : this.x / other.x]: the quotient is only taken
    with a divisor different from zero. *)
Definition componentDiv (v other : t) : t :=
  mk (if Qeq_bool (x other) 0 then 0 else x v / x other)
     (if Qeq_bool (y other) 0 then 0 else y v / y other).

Definition dot (v other : t) : Q := x v * x other + y v * y other.

Definition magnitudeSquared (v : t) : Q := dot v v.

Definition scale (v : t) (scalar : Q) : t := mk (x v * scalar) (y v * scalar).

Definition divScale (v : t) (scalar : Q) : t :=
  if Qeq_bool scalar 0 then zero else scale v (1 / scalar).

Definition distanceSquared (v other : t) : Q := magnitudeSquared (sub v other).

Definition lerp (v to : t) (amount : Q) : t := add v (scale (sub to v) amount).

Definition crossMagnitude (v other : t) : Q := x v * y other - y v * x other.

Definition crossAxisZ (v : t) : t := mk (y v) (- x v).

Definition negate (v : t) : t := scale v (-1).

(** [terms.reduce((result, [coeff, value]) => result.add(value.scale(coeff)),
    Vec2.zero)] *)
Definition linearCombination (terms : list (Q * t)) : t :=
  fold_left (fun result term => add result (scale (snd term) (fst term)))
            terms zero.

(** Equality of vectors as numbers: componentwise [Qeq]. *)
Definition eqv (v w : t) : Prop := x v == x w /\ y v == y w.

Definition eqvb (v w : t) : bool := Qeq_bool (x v) (x w) && Qeq_bool (y v) (y w).

End Vec2.

Infix "=v=" := Vec2.eqv (at level 70, no associativity).

(** ** Interpolators (src/Interpolator.ts) *)

Definition LineSegmentInterpolator (pts : Vec2.t * Vec2.t) (t : Q) : Vec2.t :=
  let '(a, b) := pts in Vec2.lerp a b t.

(** f(t) = (2a - 4b + 2c)t^2 + (-3a + 4b - c)t + a *)
Definition QuadraticInterpolator (pts : Vec2.t * Vec2.t * Vec2.t) (t : Q) : Vec2.t :=
  let '(a, b, c) := pts in
  Vec2.linearCombination
    [ (t * t, Vec2.linearCombination [(2, a); (-4 # 1, b); (2, c)]);
      (t, Vec2.linearCombination [(-3 # 1, a); (4, b); (-1 # 1, c)]);
      (1, a) ].

(** The body is the placeholder the source ships: [return a]. *)
Definition CubicInterpolator (pts : Vec2.t * Vec2.t * Vec2.t * Vec2.t) (t : Q) : Vec2.t :=
  let '(a, b, c, d) := pts in a.

(** The body is the placeholder the source ships: [return a]. *)
Definition HermiteInterpolator (pts : Vec2.t * Vec2.t * Vec2.t * Vec2.t) (t : Q) : Vec2.t :=
  let '(a, b, c, d) := pts in a.


(** [pts[i]] for an index that is a JavaScript number holding an integer:
    [None] is [undefined] (negative or past the end). *)
Definition get {A : Type} (l : list A) (i : Z) : option A :=
  if (i <? 0)%Z then None else nth_error l (Z.to_nat i).

(** [a < b] on numbers. *)
Definition Qlt_bool (a b : Q) : bool := negb (Qle_bool b a).

(** Rounding towards zero, and the remainder [a % b] of two finite numbers
    with [b] not zero: [a - b * trunc(a / b)], which has the sign of [a]. *)
Definition Qtrunc (q : Q) : Z := if Qlt_bool q 0 then Qceiling q else Qfloor q.

Definition js_rem (a b : Q) : Q := a - b * inject_Z (Qtrunc (a / b)).

Record SubRange : Type := mkSubRange { parameter : Q; index : Z }.

(** [count] is the number of segments; the only caller passes
    [pts.length - 1] after checking that it is at least 1, and the model of
    [1 / count] is exact for those counts.  This is the function of exact
    arithmetic; [F64.remapParameterToSubRange] is the same body on doubles,
    where the two quotients are rounded. *)
Definition remapParameterToSubRange (parameter : Q) (count : Z) : SubRange :=
  if Qle_bool parameter 0 then
    mkSubRange 0 0
  else if Qle_bool 1 parameter then
    mkSubRange 1 (count - 1)
  else
    let segmentWidth := 1 / inject_Z count in
    let subT := js_rem parameter segmentWidth / segmentWidth in
    let segmentIndex := Qfloor (parameter / segmentWidth) in
    mkSubRange subT segmentIndex.

(** [None]: one of [pts[index]], [pts[index + 1]] is [undefined], and the
    call of [lerp] on it throws a TypeError. *)
Definition LineSegmentsInterpolator (pts : list Vec2.t) (t : Q) : option Vec2.t :=
  let numSegments := (Z.of_nat (length pts) - 1)%Z in
  if (numSegments <? 1)%Z then
    Some (match get pts 0 with Some p => p | None => Vec2.zero end)
  else
    let r := remapParameterToSubRange t numSegments in
    match get pts (index r), get pts (index r + 1) with
    | Some a, Some b => Some (LineSegmentInterpolator (a, b) (parameter r))
    | _, _ => None
    end.

(** ** Rect (src/unnamed/part_001) *)

Module Rect.

Record t : Type := mk { origin : Vec2.t; size : Vec2.t }.

Definition zero : t := mk Vec2.zero Vec2.zero.

Definition create (x y width height : Q) : t :=
  mk (Vec2.mk x y) (Vec2.mk width height).

Definition withCorners (a b : Vec2.t) : t :=
  let minX := Qmin (Vec2.x a) (Vec2.x b) in
  let minY := Qmin (Vec2.y a) (Vec2.y b) in
  let maxX := Qmax (Vec2.x a) (Vec2.x b) in
  let maxY := Qmax (Vec2.y a) (Vec2.y b) in
  create minX minY (maxX - minX) (maxY - minY).

Definition width (r : t) : Q := Vec2.x (size r).
Definition height (r : t) : Q := Vec2.y (size r).

Definition convertNormalizedCoordinate (r : t) (p : Vec2.t) : Vec2.t :=
  Vec2.add (origin r) (Vec2.componentMul (size r) p).

Definition farCorner (r : t) : Vec2.t := convertNormalizedCoordinate r Vec2.one.

Definition midpoint (r : t) : Vec2.t :=
  convertNormalizedCoordinate r (Vec2.mk (1 # 2) (1 # 2)).

Record Insets : Type := mkInsets { left : Q; right : Q; top : Q; bottom : Q }.

(** An axis of [insetEach] after its two edges moved: when they crossed
    ([min > max]) both become their mean. *)
Definition collapseAxis (min max : Q) : Q * Q :=
  if Qlt_bool max min then ((max + min) / 2, (max + min) / 2) else (min, max).

Definition insetEach (r : t) (insets : Insets) : t :=
  let lo := convertNormalizedCoordinate r (Vec2.mk 0 0) in
  let hi := convertNormalizedCoordinate r (Vec2.mk 1 1) in
  let minX := Vec2.x lo + left insets in
  let maxX := Vec2.x hi - right insets in
  let minY := Vec2.y lo + top insets in
  let maxY := Vec2.y hi - bottom insets in
  let xs := collapseAxis minX maxX in
  let ys := collapseAxis minY maxY in
  withCorners (Vec2.mk (fst xs) (fst ys)) (Vec2.mk (snd xs) (snd ys)).

End Rect.

(** ** Matrix (src/src/Derivative.ts, the Matrix class) *)

(** A number that may be [NaN]: reading past the end of an array gives
    [undefined], and arithmetic on [undefined] gives [NaN], which every
    further [+] and [*] keeps. *)
Definition num : Type := option Q.

Definition nadd (a b : num) : num :=
  match a, b with Some p, Some q => Some (p + q) | _, _ => None end.

Definition nmul (a b : num) : num :=
  match a, b with Some p, Some q => Some (p * q) | _, _ => None end.

(** [a.reduce((accum, val, index) => accum + val * b[index], 0)] *)
Definition VecNDot (a : list num) (b : list Q) : num :=
  fold_left (fun accum vi => nadd accum (nmul (snd vi) (nth_error b (fst vi))))
            (combine (seq 0 (length a)) a) (Some 0).

Module Matrix.

(** [data]: the columns, each a list of its entries from the first row on. *)
Definition t : Type := list (list Q).

Definition rows (m : t) : nat :=
  match m with c :: _ => length c | [] => 0%nat end.

Definition columns (m : t) : nat := length m.

Definition columnAtIndex (m : t) (column : nat) : option (list Q) :=
  nth_error m column.

Definition atColumnRow (m : t) (column row : nat) : num :=
  match columnAtIndex m column with
  | Some c => nth_error c row
  | None => None
  end.

Definition at_ (m : t) (row column : nat) : num := atColumnRow m column row.

(** [NVecMap(this.data, (_, column) => this.at({ row, column }))] *)
Definition rowAtIndex (m : t) (row : nat) : list num :=
  map (fun column => at_ m row column) (seq 0 (length m)).

(** [Array.from({ length: this.size.rows }, (_, row) =>
    VecNDot(this.rowAtIndex(row), vec))] *)
Definition mulVecN (m : t) (vec : list Q) : list num :=
  map (fun row => VecNDot (rowAtIndex m row) vec) (seq 0 (rows m)).

(** [None]: a component of the result is not a number. *)
Definition mulVec2 (m : t) (v : Vec2.t) : option Vec2.t :=
  let components :=
    if (rows m =? 2)%nat then Vec2.components v
    else Vec2.components v ++ [1] in
  let res := mulVecN m components in
  match nth_error res 0, nth_error res 1 with
  | Some (Some r0), Some (Some r1) => Some (Vec2.mk r0 r1)
  | _, _ => None
  end.

(** In exact arithmetic; [F64.viewportTransformation] is the same body on
    doubles, where [sourceUR - sourceLL] can round to zero for a source of
    non-zero size. *)
Definition viewportTransformation (source dest : Rect.t) : t :=
  let sourceLL := Rect.origin source in
  let sourceUR := Rect.farCorner source in
  let destLL := Rect.origin dest in
  let destUR := Rect.farCorner dest in
  let scale := Vec2.componentDiv (Vec2.sub destUR destLL) (Vec2.sub sourceUR sourceLL) in
  let translate := Vec2.sub destLL (Vec2.componentMul scale sourceLL) in
  [ [Vec2.x scale; 0; 0];
    [0; Vec2.y scale; 0];
    [Vec2.x translate; Vec2.y translate; 0] ].

(** A matrix as a provider builds it: an entry computed from an
    out-of-range read is [NaN]. *)
Definition raw : Type := list (list num).

(** A matrix of numbers seen as a provider-built one. *)
Definition inject (m : t) : raw := map (map Some) m.

(** [Array.from({ length: x.columns }, (_, column) => f(column))] *)
Definition withColumnProvider {A : Type} (columns : nat) (f : nat -> list A)
  : list (list A) :=
  map f (seq 0 columns).

Definition withProvider {A : Type} (rows columns : nat) (f : nat -> nat -> A)
  : list (list A) :=
  withColumnProvider columns (fun column => map (fun row => f row column) (seq 0 rows)).

Definition identity (n : nat) : t :=
  withProvider n n (fun row column => if (row =? column)%nat then 1 else 0).

Definition withVec2Columns (first second : Vec2.t) : t :=
  [Vec2.components first; Vec2.components second].

Definition transpose (m : t) : raw :=
  withProvider (columns m) (rows m) (fun row column => at_ m column row).

(** [other.columnAtIndex(column)] is read for [column < other.size.columns]
    only, where it is defined. *)
Definition mul (m other : t) : raw :=
  withColumnProvider (columns other)
    (fun column =>
       match columnAtIndex other column with
       | Some cVec => mulVecN m cVec
       | None => []
       end).

End Matrix.

(** How a call ends: with a value, or with a thrown error. *)
Inductive GeometryError : Type := InvalidGeometry.

Inductive Outcome (A : Type) : Type :=
| Returns (a : A)
| Throws (e : GeometryError).
Arguments Returns {A} a.
Arguments Throws {A} e.

(** A call of [Matrix.viewportTransformation]: the body has no [throw] and
    only does arithmetic on numbers, so it always ends with a matrix. *)
Definition viewportTransformation_call (source dest : Rect.t) : Outcome Matrix.t :=
  Returns (Matrix.viewportTransformation source dest).


(** ** Arc-length lookup (src/unnamed/part_002) *)

Record Point3D : Type := mkPoint3D { px : Q; py : Q; pz : Q }.

(** [n <= 1 ? 1 : n * factorial(n - 1)], in exact arithmetic;
    [F64.factorial] is the same body on doubles, exact up to 22 and
    Infinity from 171 on. *)
Fixpoint factorial (n : nat) : Q :=
  match n with
  | O => 1
  | S m => if (n <=? 1)%nat then 1 else inject_Z (Z.of_nat n) * factorial m
  end.

Definition binomialCoefficient (n k : nat) : Q :=
  factorial n / (factorial k * factorial (n - k)).

(** [Math.pow(base, e)] for an exponent that is a natural number. *)
Definition pow (base : Q) (e : nat) : Q := Qpower base (Z.of_nat e).

(** The loop [for (let i = 0; i <= n; i++)] with [n = points.length - 1]
    visits every index of [points] once, in order, and none when [points]
    is empty. *)
Definition evaluateBezier (points : list Point3D) (t : Q) : Point3D :=
  let n := (length points - 1)%nat in
  fold_left
    (fun acc ip =>
       let i := fst ip in
       let p := snd ip in
       let coef := binomialCoefficient n i * pow (1 - t) (n - i) * pow t i in
       mkPoint3D (px acc + coef * px p) (py acc + coef * py p) (pz acc + coef * pz p))
    (combine (seq 0 (length points)) points)
    (mkPoint3D 0 0 0).

Section ArcLength.

(** [Math.sqrt]: a square root of a sum of squares is irrational in general,
    so the function is a parameter of the model. *)
Variable sqrt : Q -> Q.

(** The loop state of [buildArcLengthTable]: the running [length], the
    previous sample, and the entries of [table] written so far. *)
Record TableState : Type :=
  mkTableState { length_ : Q; prevPoint : Point3D; table_ : list Q }.

(** One iteration [i] of the loop; [table[i] = length] extends the table by
    one entry, as [i] counts up from 1. *)
Definition tableStep (points : list Point3D) (steps : nat)
    (st : TableState) (i : nat) : TableState :=
  let t := inject_Z (Z.of_nat i) / inject_Z (Z.of_nat steps) in
  let currentPoint := evaluateBezier points t in
  let length' :=
    length_ st +
    sqrt (pow (px currentPoint - px (prevPoint st)) 2 +
          pow (py currentPoint - py (prevPoint st)) 2 +
          pow (pz currentPoint - pz (prevPoint st)) 2) in
  mkTableState length' currentPoint (table_ st ++ [length']).

(** [steps] defaults to 1000 when the caller leaves it out. *)
Definition buildArcLengthTable (points : list Point3D) (steps : nat) : list Q :=
  table_ (fold_left (tableStep points steps) (seq 1 steps)
                    (mkTableState 0 (evaluateBezier points 0) [0])).

End ArcLength.

(** The entry [table[i]] compared with [arcLength]; a comparison with
    [undefined] is false. *)
Definition entry_lt (table : list Q) (i : Z) (arcLength : Q) : bool :=
  match get table i with
  | Some v => Qlt_bool v arcLength
  | None => false
  end.

(** The [while (low < high)] loop; the result is the value of [index] when
    the loop ends. *)
Equations? searchLoop (table : list Q) (arcLength : Q) (low high index : Z) : Z
  by wf (Z.to_nat (high - low)) lt :=
searchLoop table arcLength low high index with Z_lt_dec low high := {
  | left _ with entry_lt table ((low + high) / 2) arcLength := {
    | true => searchLoop table arcLength ((low + high) / 2 + 1) high ((low + high) / 2)
    | false => searchLoop table arcLength low ((low + high) / 2) ((low + high) / 2) }
  | right _ => index }.
Proof.
  - assert (low <= (low + high) / 2 < high)%Z
      by (split; [apply Z.div_le_lower_bound | apply Z.div_lt_upper_bound]; lia).
    lia.
  - assert (low <= (low + high) / 2 < high)%Z
      by (split; [apply Z.div_le_lower_bound | apply Z.div_lt_upper_bound]; lia).
    lia.
Qed.

(** [None]: the result is not a finite number, because [table[index - 1]] or
    [table[index]] is [undefined] or because a divisor is zero. *)
Definition findTForArcLength (table : list Q) (arcLength : Q) : option Q :=
  if Qle_bool arcLength 0 then Some 0
  else
    let lastIndex := (Z.of_nat (length table) - 1)%Z in
    if match get table lastIndex with
       | Some total => Qle_bool total arcLength
       | None => false
       end
    then Some 1
    else
      let index := searchLoop table arcLength 0 lastIndex 0 in
      let t0 := inject_Z (index - 1) / inject_Z lastIndex in
      let t1 := inject_Z index / inject_Z lastIndex in
      match get table (index - 1), get table index with
      | Some arcLength0, Some arcLength1 =>
          if (lastIndex =? 0)%Z || Qeq_bool (arcLength1 - arcLength0) 0 then None
          else Some (t0 + (arcLength - arcLength0) / (arcLength1 - arcLength0) * (t1 - t0))
      | _, _ => None
      end.

(** The matrix [[sx, 0, 0], [0, sy, 0], [tx, ty, 1]] (columns): the affine
    map with the given scale and translation, with the homogeneous entry 1
    that [Matrix.fromDOMMatrix] writes. *)
Definition affineMatrix (scale translate : Vec2.t) : Matrix.t :=
  [ [Vec2.x scale; 0; 0];
    [0; Vec2.y scale; 0];
    [Vec2.x translate; Vec2.y translate; 1] ].

(** The scale and the translation that [Matrix.viewportTransformation]
    computes before it builds the matrix. *)
Definition viewportScale (source dest : Rect.t) : Vec2.t :=
  Vec2.componentDiv (Vec2.sub (Rect.farCorner dest) (Rect.origin dest))
                    (Vec2.sub (Rect.farCorner source) (Rect.origin source)).

Definition viewportTranslate (source dest : Rect.t) : Vec2.t :=
  Vec2.sub (Rect.origin dest)
           (Vec2.componentMul (viewportScale source dest) (Rect.origin source)).

(** A computable square root used to run examples: [Math.sqrt] where the
    root is rational (the argument taken in lowest terms), rounded down on
    numerator and denominator otherwise. *)
Definition rationalSqrt (q : Q) : Q :=
  let r := Qred q in Z.sqrt (Qnum r) # Pos.sqrt (Qden r).

(** Each entry is greater than or equal to the one before it. *)
Definition nondecreasing (table : list Q) : Prop :=
  forall (i : nat) (a b : Q),
    nth_error table i = Some a -> nth_error table (S i) = Some b -> a <= b.

(** Each entry is greater than the one before it. *)
Definition increasing (table : list Q) : Prop :=
  forall (i : nat) (a b : Q),
    nth_error table i = Some a -> nth_error table (S i) = Some b -> a < b.

(** The lookup as its documentation words it.  [i] brackets [s] when
    [table[i - 1] <= s <= table[i]]; the answer interpolates linearly
    between [(i - 1) / N] and [i / N] by the position of [s] between the two
    entries, [N] being the number of steps. *)
Definition brackets (table : list Q) (s : Q) (i : Z) : Prop :=
  exists lo hi : Q,
    get table (i - 1) = Some lo /\ get table i = Some hi /\ lo <= s <= hi.

Definition interpolateInBracket (table : list Q) (s : Q) (i : Z) : option Q :=
  let N := inject_Z (Z.of_nat (length table) - 1) in
  match get table (i - 1), get table i with
  | Some lo, Some hi =>
      Some (inject_Z (i - 1) / N +
            (s - lo) / (hi - lo) * (inject_Z i / N - inject_Z (i - 1) / N))
  | _, _ => None
  end.


(** ** Canvas.canvasMat (src/unnamed/part_001) *)

(** A quotient of two numbers; [None]: the divisor is zero, and the result
    is not a number of exact arithmetic. *)
Definition qdiv (a b : Q) : option Q :=
  if Qeq_bool b 0 then None else Some (a / b).

(** The transform installed on the drawing context, as a function of the
    fields and the pixel ratio it reads.  [None]: a canvas dimension is zero
    and a scale is a quotient by zero. *)
Definition canvasMat (canvasSize : Vec2.t) (viewRect : Rect.t) (pixelRatio : Q)
  : option Matrix.t :=
  match qdiv (Vec2.x (Rect.size viewRect)) (Vec2.x canvasSize),
        qdiv (- Vec2.y (Rect.size viewRect)) (Vec2.y canvasSize) with
  | Some qx, Some qy =>
      let sx := qx * pixelRatio in
      let sy := qy * pixelRatio in
      let tx := 0 in
      let ty := Vec2.y canvasSize * pixelRatio in
      Some [ [sx; 0; 0]; [0; sy; 0]; [tx; ty; 1] ]
  | _, _ => None
  end.

(** ** Numeric derivatives (src/src/Derivative.ts, first part) *)

(** [None]: [dx] is zero. *)
Definition explictNumericDerivative (x : Q) (fn : Q -> Q) (dx : Q) : option Q :=
  let x0 := x - dx / 2 in
  let x1 := x + dx / 2 in
  let y0 := fn x0 in
  let y1 := fn x1 in
  qdiv (y1 - y0) dx.

(** [None]: a step is zero, or the divisor [df_dy] is. *)
Definition implicitNumericDerivative (p : Vec2.t) (fn : Q -> Q -> Q) (dx dy : Q)
  : option Q :=
  let x := Vec2.x p in
  let y := Vec2.y p in
  match explictNumericDerivative x (fun n => fn x n) dx,
        explictNumericDerivative y (fun n => fn n y) dy with
  | Some df_dx, Some df_dy => qdiv (- df_dx) df_dy
  | _, _ => None
  end.

(** ** Line through a point (src/Interpolator.ts, second part) *)

(** [None]: [dir.x] is zero. *)
Definition yValueForPointOnLine (point dir : Vec2.t) (xValue : Q) : option Q :=
  match qdiv (xValue - Vec2.x point) (Vec2.x dir) with
  | Some t => Some (Vec2.y point + t * Vec2.y dir)
  | None => None
  end.

(** [h] defaults to 0.0000001.  [None]: [h] is zero. *)
Definition derivative (fn : Q -> Q) (h : Q) (x : Q) : option Q :=
  let fx := fn x in
  let fxh := fn (x + h) in
  qdiv (fxh - fx) h.

(** ** Arc length, and points up to [Qeq] (src/unnamed/part_002) *)

Definition eqp (p q : Point3D) : Prop :=
  px p == px q /\ py p == py q /\ pz p == pz q.

Section ArcLengthTotal.

Variable sqrt : Q -> Q.

(** The loop state of [arcLength]: the running [length] and the previous
    sample. *)
Definition lengthStep (points : list Point3D) (steps : nat)
    (st : Q * Point3D) (i : nat) : Q * Point3D :=
  let t := inject_Z (Z.of_nat i) / inject_Z (Z.of_nat steps) in
  let currentPoint := evaluateBezier points t in
  (fst st +
   sqrt (pow (px currentPoint - px (snd st)) 2 +
         pow (py currentPoint - py (snd st)) 2 +
         pow (pz currentPoint - pz (snd st)) 2),
   currentPoint).

(** [steps] defaults to 1000 when the caller leaves it out. *)
Definition arcLength (points : list Point3D) (steps : nat) : Q :=
  fst (fold_left (lengthStep points steps) (seq 1 steps)
                 (0, evaluateBezier points 0)).

End ArcLengthTotal.

(** ** Cubic Bezier curves in the plane (src/src/Derivative.ts, third part) *)

(** The answer of one probe [arr[mid]] of the binary search: [Lt] when
    [arr[mid] < value], [Gt] when [arr[mid] > value], [Eq] otherwise (also
    when [arr[mid]] is [undefined], both comparisons being false). *)
Definition probe (arr : list Q) (mid : Z) (value : Q) : comparison :=
  match get arr mid with
  | Some v => if Qlt_bool v value then Lt else if Qlt_bool value v then Gt else Eq
  | None => Eq
  end.

(** The [while (low <= high)] loop of [binarySearch] with its two exits:
    [return mid] inside the loop and [return low - 1] after it. *)
Equations? binarySearchLoop (arr : list Q) (value : Q) (low high : Z) : Z
  by wf (Z.to_nat (high - low + 1)) lt :=
binarySearchLoop arr value low high with Z_le_dec low high := {
  | left _ with probe arr ((low + high) / 2) value := {
    | Lt => binarySearchLoop arr value ((low + high) / 2 + 1) high
    | Gt => binarySearchLoop arr value low ((low + high) / 2 - 1)
    | Eq => ((low + high) / 2)%Z }
  | right _ => (low - 1)%Z }.
Proof.
  - assert (low <= (low + high) / 2 <= high)%Z
      by (split; [apply Z.div_le_lower_bound | apply Z.div_le_upper_bound]; lia).
    lia.
  - assert (low <= (low + high) / 2 <= high)%Z
      by (split; [apply Z.div_le_lower_bound | apply Z.div_le_upper_bound]; lia).
    lia.
Qed.

Module Bezier2D.

Record Point : Type := mkPoint { x : Q; y : Q }.

Record BezierCurve : Type := mkCurve { p0 : Point; p1 : Point; p2 : Point; p3 : Point }.

Definition computePointOnCurve (curve : BezierCurve) (t : Q) : Point :=
  let s := 1 - t in
  mkPoint
    (s * s * s * x (p0 curve) + 3 * s * s * t * x (p1 curve)
     + 3 * s * t * t * x (p2 curve) + t * t * t * x (p3 curve))
    (s * s * s * y (p0 curve) + 3 * s * s * t * y (p1 curve)
     + 3 * s * t * t * y (p2 curve) + t * t * t * y (p3 curve)).

Definition binarySearch (arr : list Q) (value : Q) : Z :=
  binarySearchLoop arr value 0 (Z.of_nat (length arr) - 1).

Definition lerp (a b t : Q) : Q := (1 - t) * a + t * b.

(** [None]: [a] and [b] are equal. *)
Definition inverseLerp (value a b : Q) : option Q := qdiv (value - a) (b - a).

Section Lengths.

Variable sqrt : Q -> Q.

Definition segmentLength (p1 p2 : Point) : Q :=
  let dx := x p2 - x p1 in
  let dy := y p2 - y p1 in
  sqrt (dx * dx + dy * dy).

(** The state of the two sampling loops: the running length, the parameter
    [t], the previous sample [p1], and (for the second loop) the array [st]. *)
Record Walk : Type := mkWalk { len : Q; param : Q; prev : Point; st_ : list Q }.

(** One iteration of the loop of [reparametrizeCurveByArcLength]; the loop
    of [curveLength] is the same without the [push]. *)
Definition walkStep (curve : BezierCurve) (dt : Q) (w : Walk) (i : nat) : Walk :=
  let p2 := computePointOnCurve curve (param w + dt) in
  let s := len w + segmentLength (prev w) p2 in
  mkWalk s (param w + dt) p2 (st_ w ++ [s]).

Definition lengthWalkStep (curve : BezierCurve) (dt : Q) (w : Q * Q * Point) (i : nat)
  : Q * Q * Point :=
  let '(length, t, p1) := w in
  let p2 := computePointOnCurve curve (t + dt) in
  (length + segmentLength p1 p2, t + dt, p2).

Definition curveLength (curve : BezierCurve) (numSegments : nat) : Q :=
  let dt := 1 / inject_Z (Z.of_nat numSegments) in
  fst (fst (fold_left (lengthWalkStep curve dt) (seq 1 numSegments)
                      (0, 0, p0 curve))).

(** The array [st] of cumulative lengths that
    [reparametrizeCurveByArcLength] builds. *)
Definition cumulativeLengths (curve : BezierCurve) (numSegments : nat) : list Q :=
  let dt := 1 / inject_Z (Z.of_nat numSegments) in
  st_ (fold_left (walkStep curve dt) (seq 1 numSegments)
                 (mkWalk 0 0 (p0 curve) [0])).

(** The array [ts]: 0, then [inverseLerp(st[i], 0, curveLen)] for [i] from 1
    to [numSegments]. *)
Definition normalizedLengths (curve : BezierCurve) (numSegments : nat) : list num :=
  Some 0 ::
  map (fun i =>
         match nth_error (cumulativeLengths curve numSegments) i with
         | Some v => inverseLerp v 0 (curveLength curve numSegments)
         | None => None
         end)
      (seq 1 numSegments).

(** The function that [reparametrizeCurveByArcLength] returns, applied to
    [s].  [None]: the result is not a number, because an array is read out
    of range or a divisor is zero. *)
Definition reparametrizeCurveByArcLength (curve : BezierCurve) (numSegments : nat)
    (s : Q) : option Q :=
  let st := cumulativeLengths curve numSegments in
  let ts := normalizedLengths curve numSegments in
  let idx := binarySearch st s in
  match get ts idx, get ts (idx + 1), get st idx, get st (idx + 1) with
  | Some (Some t1), Some (Some t2), Some a, Some b =>
      match qdiv (s - a) (b - a) with
      | Some u => Some (lerp t1 t2 u)
      | None => None
      end
  | _, _, _, _ => None
  end.

End Lengths.

End Bezier2D.

(** ** The same functions on IEEE doubles

    Where a claim turns on what rounding does (an index, a branch, an
    overflow), the function is embedded a second time with the arithmetic of
    binary64: [+], [-], [*], [/] and the comparisons are the operations of
    [SpecFloat] with 53 bits of precision, rounding to nearest, ties to even.
    [undefined] read from an array is [NaN] as soon as it meets arithmetic,
    and is modelled by it. *)

Module F64.

Definition number : Type := SpecFloat.spec_float.

Definition prec : Z := 53.
Definition emax : Z := 1024.

Definition NaN : number := SpecFloat.S754_nan.
Definition Infinity : number := SpecFloat.S754_infinity false.
Definition zero : number := SpecFloat.S754_zero false.

(** The double nearest to an integer (the integer itself up to 2^53). *)
Definition ofZ (z : Z) : number := SpecFloat.binary_normalize prec emax z 0 false.

Definition one : number := ofZ 1.

Definition add (a b : number) : number := SpecFloat.SFadd prec emax a b.
Definition sub (a b : number) : number := SpecFloat.SFsub prec emax a b.
Definition mul (a b : number) : number := SpecFloat.SFmul prec emax a b.
Definition div (a b : number) : number := SpecFloat.SFdiv prec emax a b.

(** [a === b], [a <= b] on numbers: false when an operand is NaN. *)
Definition eqb (a b : number) : bool := SpecFloat.SFeqb a b.
Definition leb (a b : number) : bool := SpecFloat.SFleb a b.

(** The value of a finite double, as a rational. *)
Definition toQ (a : number) : option Q :=
  match a with
  | SpecFloat.S754_zero _ => Some 0
  | SpecFloat.S754_finite s m e =>
      Some (inject_Z (if s then Z.neg m else Z.pos m) * Qpower 2 e)
  | _ => None
  end.

(** [Math.floor]. *)
Definition floor (a : number) : number :=
  match a with
  | SpecFloat.S754_finite s m e =>
      if (0 <=? e)%Z then a
      else
        let z := ((if s then Z.neg m else Z.pos m) / 2 ^ (- e))%Z in
        if (z =? 0)%Z then SpecFloat.S754_zero s else ofZ z
  | _ => a
  end.

(** [a % b]: the remainder of the division truncated towards zero, which
    is exact; NaN when [a] is infinite or [b] is zero. *)
Definition rem (a b : number) : number :=
  match a, b with
  | SpecFloat.S754_nan, _ => NaN
  | _, SpecFloat.S754_nan => NaN
  | SpecFloat.S754_infinity _, _ => NaN
  | _, SpecFloat.S754_zero _ => NaN
  | SpecFloat.S754_zero _, _ => a
  | _, SpecFloat.S754_infinity _ => a
  | SpecFloat.S754_finite sa ma ea, SpecFloat.S754_finite _ mb eb =>
      let e := Z.min ea eb in
      let r := Z.rem (Z.pos ma * 2 ^ (ea - e)) (Z.pos mb * 2 ^ (eb - e)) in
      if (r =? 0)%Z then SpecFloat.S754_zero sa
      else SpecFloat.binary_normalize prec emax (if sa then (- r)%Z else r) e false
  end.

(** The integer a number holds, when it holds one: the key of [pts[index]]. *)
Definition toIndex (a : number) : option Z :=
  match a with
  | SpecFloat.S754_zero _ => Some 0%Z
  | SpecFloat.S754_finite s m e =>
      let z := if s then Z.neg m else Z.pos m in
      if (0 <=? e)%Z then Some (z * 2 ^ e)%Z
      else if (Z.rem z (2 ^ (- e)) =? 0)%Z then Some (z / 2 ^ (- e))%Z
      else None
  | _ => None
  end.

Definition read {A : Type} (l : list A) (i : number) : option A :=
  match toIndex i with
  | Some z => get l z
  | None => None
  end.

Record Vec2 : Type := mkVec2 { x : number; y : number }.

Definition vadd (v other : Vec2) : Vec2 := mkVec2 (add (x v) (x other)) (add (y v) (y other)).

Definition vsub (v other : Vec2) : Vec2 := mkVec2 (sub (x v) (x other)) (sub (y v) (y other)).

Definition componentMul (v other : Vec2) : Vec2 :=
  mkVec2 (mul (x v) (x other)) (mul (y v) (y other)).

Definition componentDiv (v other : Vec2) : Vec2 :=
  mkVec2 (if eqb (x other) zero then zero else div (x v) (x other))
         (if eqb (y other) zero then zero else div (y v) (y other)).

Definition scale (v : Vec2) (scalar : number) : Vec2 :=
  mkVec2 (mul (x v) scalar) (mul (y v) scalar).

Definition lerp (v to : Vec2) (amount : number) : Vec2 :=
  vadd v (scale (vsub to v) amount).

Record Rect : Type := mkRect { origin : Vec2; size : Vec2 }.

Definition create (x0 y0 width height : number) : Rect :=
  mkRect (mkVec2 x0 y0) (mkVec2 width height).

Definition width (r : Rect) : number := x (size r).
Definition height (r : Rect) : number := y (size r).

Definition convertNormalizedCoordinate (r : Rect) (p : Vec2) : Vec2 :=
  vadd (origin r) (componentMul (size r) p).

Definition farCorner (r : Rect) : Vec2 := convertNormalizedCoordinate r (mkVec2 one one).

(** The matrix: its columns. *)
Definition Matrix : Type := list (list number).

Definition rows (m : Matrix) : nat :=
  match m with c :: _ => length c | [] => 0%nat end.

Definition at_ (m : Matrix) (row column : nat) : number :=
  nth row (nth column m []) NaN.

Definition rowAtIndex (m : Matrix) (row : nat) : list number :=
  map (fun column => at_ m row column) (seq 0 (length m)).

Definition VecNDot (a b : list number) : number :=
  fold_left (fun accum vi => add accum (mul (snd vi) (nth (fst vi) b NaN)))
            (combine (seq 0 (length a)) a) zero.

Definition mulVecN (m : Matrix) (vec : list number) : list number :=
  map (fun row => VecNDot (rowAtIndex m row) vec) (seq 0 (rows m)).

Definition mulVec2 (m : Matrix) (v : Vec2) : Vec2 :=
  let components :=
    if (rows m =? 2)%nat then [x v; y v] else [x v; y v; one] in
  let res := mulVecN m components in
  mkVec2 (nth 0 res NaN) (nth 1 res NaN).

Definition viewportTransformation (source dest : Rect) : Matrix :=
  let sourceLL := origin source in
  let sourceUR := farCorner source in
  let destLL := origin dest in
  let destUR := farCorner dest in
  let scale := componentDiv (vsub destUR destLL) (vsub sourceUR sourceLL) in
  let translate := vsub destLL (componentMul scale sourceLL) in
  [ [x scale; zero; zero];
    [zero; y scale; zero];
    [x translate; y translate; zero] ].

Record SubRange : Type := mkSubRange { parameter : number; index : number }.

Definition remapParameterToSubRange (parameter count : number) : SubRange :=
  if leb parameter zero then
    mkSubRange zero zero
  else if leb one parameter then
    mkSubRange one (sub count one)
  else
    let segmentWidth := div one count in
    let subT := div (rem parameter segmentWidth) segmentWidth in
    let segmentIndex := floor (div parameter segmentWidth) in
    mkSubRange subT segmentIndex.

(** [None]: [pts[index]] or [pts[index + 1]] is [undefined] and the call of
    [lerp] on it throws a TypeError. *)
Definition LineSegmentsInterpolator (pts : list Vec2) (t : number) : option Vec2 :=
  let numSegments := (Z.of_nat (length pts) - 1)%Z in
  if (numSegments <? 1)%Z then
    Some (match pts with p :: _ => p | [] => mkVec2 zero zero end)
  else
    let r := remapParameterToSubRange t (ofZ numSegments) in
    match read pts (index r), read pts (add (index r) one) with
    | Some a, Some b => Some (lerp a b (parameter r))
    | _, _ => None
    end.

Fixpoint factorial (n : nat) : number :=
  match n with
  | O => one
  | S m => if (n <=? 1)%nat then one else mul (ofZ (Z.of_nat n)) (factorial m)
  end.

Definition binomialCoefficient (n k : nat) : number :=
  div (factorial n) (mul (factorial k) (factorial (n - k))).

(** Whether a number is neither an infinity nor NaN. *)
Definition finite (a : number) : bool :=
  match a with
  | SpecFloat.S754_zero _ | SpecFloat.S754_finite _ _ _ => true
  | _ => false
  end.

End F64.

(** n! as an integer. *)
Fixpoint Zfact (n : nat) : Z :=
  match n with
  | O => 1
  | S m => Z.of_nat n * Zfact m
  end.

(** The doubles [factorial(0)], ..., [factorial(170)], computed once. *)
Definition factorials64 : list F64.number := map F64.factorial (seq 0 171).

(** 0.9999999999999999, the double just below 1: 1 - 2^-53. *)
Definition justBelowOne : F64.number :=
  SpecFloat.S754_finite false (2 ^ 53 - 1) (-53).

(** * Properties *)

(** ** Vectors up to [Qeq] *)

Lemma eqvb_spec (v w : Vec2.t) : Vec2.eqvb v w = true <-> v =v= w.
Proof.
  unfold Vec2.eqvb, Vec2.eqv. rewrite andb_true_iff, !Qeq_bool_iff. tauto.
Qed.

Lemma eqv_refl (v : Vec2.t) : v =v= v.
Proof. split; reflexivity. Qed.

Lemma eqv_sym (v w : Vec2.t) : v =v= w -> w =v= v.
Proof. intros [Hx Hy]; split; symmetry; assumption. Qed.

Lemma eqv_trans (u v w : Vec2.t) : u =v= v -> v =v= w -> u =v= w.
Proof. intros [Hx Hy] [Hx' Hy']; split; etransitivity; eassumption. Qed.

Ltac vec_unfold :=
  unfold Vec2.eqv, LineSegmentInterpolator, Vec2.lerp, Vec2.linearCombination,
    Vec2.add, Vec2.sub, Vec2.scale, Vec2.componentMul, Vec2.zero, Vec2.one;
  cbn [fold_left fst snd Vec2.x Vec2.y].

Lemma lerp_0 (a b : Vec2.t) : Vec2.lerp a b 0 =v= a.
Proof. vec_unfold. split; ring. Qed.

Lemma lerp_1 (a b : Vec2.t) : Vec2.lerp a b 1 =v= b.
Proof. vec_unfold. split; ring. Qed.

(** ** Quadratic interpolator *)

(** C5.  For any three control points a, b, c the quadratic interpolator
    passes through a at t = 0, through b at t = 1/2 and through c at t = 1
    (exact arithmetic). *)
Theorem QuadraticInterpolator_through_points (a b c : Vec2.t) :
  QuadraticInterpolator (a, b, c) 0 =v= a /\
  QuadraticInterpolator (a, b, c) (1 # 2) =v= b /\
  QuadraticInterpolator (a, b, c) 1 =v= c.
Proof.
  unfold QuadraticInterpolator. vec_unfold.
  repeat split; ring.
Qed.

(** C4, as stated, fails: with control points (0,0), (1,2), (2,0) the value
    at t = 1/4 is not (0.625, 1.125). *)
Lemma QuadraticInterpolator_quarter_not_spec_value :
  ~ (QuadraticInterpolator (Vec2.mk 0 0, Vec2.mk 1 2, Vec2.mk 2 0) (1 # 4)
       =v= Vec2.mk (5 # 8) (9 # 8)).
Proof.
  intros [Hx _]. vm_compute in Hx. discriminate Hx.
Qed.

(** C4, amended.  With control points (0,0), (1,2), (2,0) the quadratic
    interpolator at t = 1/4 is (0.5, 1.5), the value of
    (2a - 4b + 2c)t^2 + (-3a + 4b - c)t + a there. *)
Theorem QuadraticInterpolator_quarter :
  QuadraticInterpolator (Vec2.mk 0 0, Vec2.mk 1 2, Vec2.mk 2 0) (1 # 4)
    =v= Vec2.mk (1 # 2) (3 # 2).
Proof.
  apply eqvb_spec. vm_compute. reflexivity.
Qed.

(** ** Hermite interpolator *)

Lemma HermiteInterpolator_constant (a b c d : Vec2.t) (t : Q) :
  HermiteInterpolator (a, b, c, d) t = a.
Proof. reflexivity. Qed.

(** C3, on the code.  With a = (0,0), b = (1,0), c = (0,1), d = (1,1) the
    Hermite interpolator returns a at t = 1, which is not d, and its value
    does not change with t, so its difference quotient at 0 is (0,0) for
    every step h, which is not b - a = (1,0). *)
Theorem HermiteInterpolator_stub_misses_constraints :
  let a := Vec2.mk 0 0 in
  let b := Vec2.mk 1 0 in
  let c := Vec2.mk 0 1 in
  let d := Vec2.mk 1 1 in
  let f := HermiteInterpolator (a, b, c, d) in
  f 1 = a /\ ~ (f 1 =v= d) /\
  (forall h : Q,
      Vec2.divScale (Vec2.sub (f (0 + h)) (f 0)) h =v= Vec2.zero) /\
  ~ (Vec2.zero =v= Vec2.sub b a).
Proof.
  cbv zeta. repeat split.
  - intros [Hx _]. vm_compute in Hx. discriminate Hx.
  - unfold Vec2.divScale. destruct (Qeq_bool h 0); vm_compute; reflexivity.
  - unfold Vec2.divScale. destruct (Qeq_bool h 0); vm_compute; reflexivity.
  - intros [Hx _]. vm_compute in Hx. discriminate Hx.
Qed.

(** ** Viewport transform *)

Lemma viewportTransformation_entries (source dest : Rect.t) :
  Matrix.viewportTransformation source dest =
  [ [Vec2.x (viewportScale source dest); 0; 0];
    [0; Vec2.y (viewportScale source dest); 0];
    [Vec2.x (viewportTranslate source dest);
     Vec2.y (viewportTranslate source dest); 0] ].
Proof. reflexivity. Qed.

(** What [mulVec2] computes on a 3x3 matrix whose first two rows are
    (sx, 0, tx) and (0, sy, ty): the third row is multiplied too, and its
    product is dropped. *)
Lemma mulVec2_affine_rows (sx sy tx ty r0 r1 r2 : Q) (p : Vec2.t) :
  Matrix.mulVec2 [ [sx; 0; r0]; [0; sy; r1]; [tx; ty; r2] ] p =
  Some (Vec2.mk (0 + sx * Vec2.x p + 0 * Vec2.y p + tx * 1)
                (0 + 0 * Vec2.x p + sy * Vec2.y p + ty * 1)).
Proof. reflexivity. Qed.

Lemma Qeq_bool_false (a b : Q) : ~ a == b -> Qeq_bool a b = false.
Proof.
  intros H. destruct (Qeq_bool a b) eqn:E; [|reflexivity].
  apply Qeq_bool_iff in E. contradiction.
Qed.

Lemma Qeq_bool_true (a b : Q) : a == b -> Qeq_bool a b = true.
Proof. apply Qeq_bool_iff. Qed.

(** The divisor of the scale on each axis is the source's extent there. *)
Lemma source_extent (source : Rect.t) :
  Vec2.sub (Rect.farCorner source) (Rect.origin source) =v= Rect.size source.
Proof.
  unfold Rect.farCorner, Rect.convertNormalizedCoordinate. vec_unfold.
  split; ring.
Qed.

Lemma viewportScale_x_degenerate (source dest : Rect.t) :
  Rect.width source == 0 -> Vec2.x (viewportScale source dest) = 0.
Proof.
  intros Hw. unfold viewportScale, Vec2.componentDiv. cbn [Vec2.x].
  rewrite Qeq_bool_true; [reflexivity|].
  destruct (source_extent source) as [Hx _]. rewrite Hx. exact Hw.
Qed.

Lemma viewportScale_y_degenerate (source dest : Rect.t) :
  Rect.height source == 0 -> Vec2.y (viewportScale source dest) = 0.
Proof.
  intros Hh. unfold viewportScale, Vec2.componentDiv. cbn [Vec2.y].
  rewrite Qeq_bool_true; [reflexivity|].
  destruct (source_extent source) as [_ Hy]. rewrite Hy. exact Hh.
Qed.

Lemma viewportScale_x_regular (source dest : Rect.t) :
  ~ Rect.width source == 0 ->
  Vec2.x (viewportScale source dest) == Rect.width dest / Rect.width source.
Proof.
  intros Hw. unfold viewportScale, Vec2.componentDiv. cbn [Vec2.x].
  destruct (source_extent source) as [Hx _].
  destruct (source_extent dest) as [Hdx _].
  rewrite Qeq_bool_false by (rewrite Hx; exact Hw).
  rewrite Hx, Hdx. reflexivity.
Qed.

Lemma viewportScale_y_regular (source dest : Rect.t) :
  ~ Rect.height source == 0 ->
  Vec2.y (viewportScale source dest) == Rect.height dest / Rect.height source.
Proof.
  intros Hh. unfold viewportScale, Vec2.componentDiv. cbn [Vec2.y].
  destruct (source_extent source) as [_ Hy].
  destruct (source_extent dest) as [_ Hdy].
  rewrite Qeq_bool_false by (rewrite Hy; exact Hh).
  rewrite Hy, Hdy. reflexivity.
Qed.

(** C1, as stated, fails: for the source rectangle (0,0,0,0) the call ends
    with a matrix (all of whose entries are numbers), not with
    [InvalidGeometry]. *)
Lemma viewportTransformation_degenerate_no_error :
  exists m : Matrix.t,
    viewportTransformation_call (Rect.create 0 0 0 0) (Rect.create 1 2 3 4)
      = Returns m /\
    viewportTransformation_call (Rect.create 0 0 0 0) (Rect.create 1 2 3 4)
      <> Throws InvalidGeometry.
Proof.
  eexists. split; [reflexivity | discriminate].
Qed.

(** C1, amended.  For every source rectangle and every destination, the
    viewport transform ends with a matrix, never with an error; on an axis
    where the source has zero extent the scale entry of that matrix is 0 and
    its translation entry is the destination origin's coordinate, so no
    entry comes from a division by zero. *)
Theorem viewportTransformation_degenerate_matrix (source dest : Rect.t) :
  exists sx sy tx ty : Q,
    viewportTransformation_call source dest
      = Returns [ [sx; 0; 0]; [0; sy; 0]; [tx; ty; 0] ] /\
    (Rect.width source == 0 ->
       sx == 0 /\ tx == Vec2.x (Rect.origin dest)) /\
    (Rect.height source == 0 ->
       sy == 0 /\ ty == Vec2.y (Rect.origin dest)).
Proof.
  exists (Vec2.x (viewportScale source dest)), (Vec2.y (viewportScale source dest)),
         (Vec2.x (viewportTranslate source dest)),
         (Vec2.y (viewportTranslate source dest)).
  split; [reflexivity|]. split; intros H.
  - pose proof (viewportScale_x_degenerate source dest H) as Hs.
    unfold viewportTranslate. vec_unfold. rewrite Hs. split; [reflexivity | ring].
  - pose proof (viewportScale_y_degenerate source dest H) as Hs.
    unfold viewportTranslate. vec_unfold. rewrite Hs. split; [reflexivity | ring].
Qed.

Lemma viewportTransformation_degenerate_matrix_witness :
  Rect.width (Rect.create 5 6 0 0) == 0 /\
  Rect.height (Rect.create 5 6 0 0) == 0 /\
  exists sx sy tx ty : Q,
    viewportTransformation_call (Rect.create 5 6 0 0) (Rect.create 1 2 3 4)
      = Returns [ [sx; 0; 0]; [0; sy; 0]; [tx; ty; 0] ] /\
    sx == 0 /\ tx == 1 /\ sy == 0 /\ ty == 2.
Proof.
  assert (Hw : Rect.width (Rect.create 5 6 0 0) == 0) by reflexivity.
  assert (Hh : Rect.height (Rect.create 5 6 0 0) == 0) by reflexivity.
  split; [exact Hw|]. split; [exact Hh|].
  destruct (viewportTransformation_degenerate_matrix
              (Rect.create 5 6 0 0) (Rect.create 1 2 3 4))
    as (sx & sy & tx & ty & Hcall & Hx & Hy).
  exists sx, sy, tx, ty. split; [exact Hcall|].
  destruct (Hx Hw) as [Hsx Htx]. destruct (Hy Hh) as [Hsy Hty].
  repeat split; assumption.
Defined.

(** C2, amended.  In exact arithmetic, for a source rectangle R with
    nonzero width and height and any destination S, the matrix of the
    viewport transform applied with [mulVec2] sends R's origin to S's origin
    and R's far corner to S's far corner. *)
Theorem viewportTransformation_maps_corners (R S : Rect.t) :
  ~ Rect.width R == 0 -> ~ Rect.height R == 0 ->
  exists v w : Vec2.t,
    Matrix.mulVec2 (Matrix.viewportTransformation R S) (Rect.origin R) = Some v /\
    v =v= Rect.origin S /\
    Matrix.mulVec2 (Matrix.viewportTransformation R S) (Rect.farCorner R) = Some w /\
    w =v= Rect.farCorner S.
Proof.
  intros Hw Hh.
  rewrite viewportTransformation_entries.
  do 2 eexists. split; [apply mulVec2_affine_rows|].
  split; [|split; [apply mulVec2_affine_rows|]].
  - unfold viewportTranslate. vec_unfold. split; ring.
  - pose proof (viewportScale_x_regular R S Hw) as Hx.
    pose proof (viewportScale_y_regular R S Hh) as Hy.
    unfold viewportTranslate, Rect.farCorner, Rect.convertNormalizedCoordinate.
    vec_unfold. rewrite Hx, Hy. unfold Rect.width, Rect.height in *.
    split; field; assumption.
Qed.

Lemma viewportTransformation_maps_corners_witness :
  exists v w : Vec2.t,
    Matrix.mulVec2 (Matrix.viewportTransformation (Rect.create (-2) (-2) 4 4)
                                                  (Rect.create 0 0 400 300))
                   (Vec2.mk (-2) (-2)) = Some v /\
    v =v= Vec2.mk 0 0 /\
    Matrix.mulVec2 (Matrix.viewportTransformation (Rect.create (-2) (-2) 4 4)
                                                  (Rect.create 0 0 400 300))
                   (Rect.farCorner (Rect.create (-2) (-2) 4 4)) = Some w /\
    w =v= Rect.farCorner (Rect.create 0 0 400 300).
Proof.
  apply (viewportTransformation_maps_corners
           (Rect.create (-2) (-2) 4 4) (Rect.create 0 0 400 300));
    intros H; vm_compute in H; discriminate H.
Defined.

(** C10.  The matrix of the viewport transform has third row (0, 0, 0), so
    its bottom-right entry is 0; [mulVec2] drops the third component of the
    product, so applied to any point p the matrix gives scale * p +
    translate (componentwise), the same as the affine matrix with the same
    scale and translation and bottom-right entry 1. *)
Theorem viewportTransformation_third_row_zero (source dest : Rect.t) (p : Vec2.t) :
  let m := Matrix.viewportTransformation source dest in
  let scale := viewportScale source dest in
  let translate := viewportTranslate source dest in
  Matrix.rowAtIndex m 2 = [Some 0; Some 0; Some 0] /\
  Matrix.at_ m 2 2 = Some 0 /\
  Matrix.at_ (affineMatrix scale translate) 2 2 = Some 1 /\
  exists v : Vec2.t,
    Matrix.mulVec2 m p = Some v /\
    v =v= Vec2.add (Vec2.componentMul scale p) translate /\
    Matrix.mulVec2 (affineMatrix scale translate) p = Some v.
Proof.
  cbv zeta. rewrite viewportTransformation_entries.
  split; [reflexivity|]. split; [reflexivity|]. split; [reflexivity|].
  eexists. split; [apply mulVec2_affine_rows|]. split.
  - vec_unfold. split; ring.
  - apply mulVec2_affine_rows.
Qed.

(** ** Segment chain *)

Lemma Qle_bool_false (a b : Q) : Qle_bool a b = false <-> b < a.
Proof.
  split; intros H.
  - apply Qnot_le_lt. intros Hle. apply Qle_bool_iff in Hle. congruence.
  - destruct (Qle_bool a b) eqn:E; [|reflexivity].
    apply Qle_bool_iff in E. apply Qlt_not_le in H. contradiction.
Qed.

Lemma remap_low (t : Q) (count : Z) :
  t <= 0 -> remapParameterToSubRange t count = mkSubRange 0 0.
Proof.
  intros H. unfold remapParameterToSubRange.
  apply Qle_bool_iff in H. rewrite H. reflexivity.
Qed.

Lemma remap_high (t : Q) (count : Z) :
  1 <= t -> remapParameterToSubRange t count = mkSubRange 1 (count - 1).
Proof.
  intros H. unfold remapParameterToSubRange.
  assert (H0 : Qle_bool t 0 = false) by (apply Qle_bool_false; lra).
  apply Qle_bool_iff in H. rewrite H0, H. reflexivity.
Qed.

Lemma remap_inside (t : Q) (count : Z) :
  0 < t -> t < 1 ->
  remapParameterToSubRange t count =
  mkSubRange (js_rem t (1 / inject_Z count) / (1 / inject_Z count))
             (Qfloor (t / (1 / inject_Z count))).
Proof.
  intros H0 H1. unfold remapParameterToSubRange.
  assert (E0 : Qle_bool t 0 = false) by (apply Qle_bool_false; lra).
  assert (E1 : Qle_bool 1 t = false) by (apply Qle_bool_false; lra).
  rewrite E0, E1. reflexivity.
Qed.

Section InsideSegment.

Variables (t : Q) (count : Z).
Hypothesis t_pos : 0 < t.
Hypothesis t_lt_1 : t < 1.
Hypothesis count_pos : (1 <= count)%Z.

Lemma count_ge_1 : 1 <= inject_Z count.
Proof. change 1 with (inject_Z 1). rewrite <- Zle_Qle. exact count_pos. Qed.

Lemma scaled_parameter : t / (1 / inject_Z count) == t * inject_Z count.
Proof. pose proof count_ge_1. field. lra. Qed.

Lemma scaled_parameter_bounds :
  0 < t / (1 / inject_Z count) /\ t / (1 / inject_Z count) < inject_Z count.
Proof.
  pose proof count_ge_1. rewrite scaled_parameter. split; nra.
Qed.

Lemma segmentIndex_bounds :
  (0 <= Qfloor (t / (1 / inject_Z count)) <= count - 1)%Z.
Proof.
  destruct scaled_parameter_bounds as [Hlo Hhi]. split.
  - change 0%Z with (Qfloor 0). apply Qfloor_resp_le. lra.
  - pose proof (Qfloor_le (t / (1 / inject_Z count))) as Hf.
    assert (Hlt : inject_Z (Qfloor (t / (1 / inject_Z count))) < inject_Z count)
      by lra.
    rewrite <- Zlt_Qlt in Hlt. lia.
Qed.

Lemma trunc_scaled :
  Qtrunc (t / (1 / inject_Z count)) = Qfloor (t / (1 / inject_Z count)).
Proof.
  destruct scaled_parameter_bounds as [Hlo _].
  unfold Qtrunc, Qlt_bool.
  assert (E : Qle_bool 0 (t / (1 / inject_Z count)) = true)
    by (apply Qle_bool_iff; lra).
  rewrite E. reflexivity.
Qed.

(** The sub-parameter is the fractional part of [t * count]. *)
Lemma subT_fraction :
  js_rem t (1 / inject_Z count) / (1 / inject_Z count) ==
  t / (1 / inject_Z count) - inject_Z (Qfloor (t / (1 / inject_Z count))).
Proof.
  pose proof count_ge_1. unfold js_rem. rewrite trunc_scaled.
  field. lra.
Qed.

Lemma subT_bounds :
  0 <= js_rem t (1 / inject_Z count) / (1 / inject_Z count) /\
  js_rem t (1 / inject_Z count) / (1 / inject_Z count) < 1.
Proof.
  rewrite subT_fraction.
  pose proof (Qfloor_le (t / (1 / inject_Z count))) as Hle.
  pose proof (Qlt_floor (t / (1 / inject_Z count))) as Hlt.
  rewrite inject_Z_plus in Hlt. change (inject_Z 1) with 1 in Hlt.
  split; lra.
Qed.

End InsideSegment.

Lemma remap_bounds (t : Q) (count : Z) :
  (1 <= count)%Z ->
  (0 <= index (remapParameterToSubRange t count) <= count - 1)%Z /\
  0 <= parameter (remapParameterToSubRange t count) <= 1.
Proof.
  intros Hc.
  destruct (Qlt_le_dec 0 t) as [H0|H0]; [destruct (Qlt_le_dec t 1) as [H1|H1]|].
  - rewrite remap_inside by assumption. cbn [index parameter].
    pose proof (segmentIndex_bounds t count H0 H1 Hc).
    pose proof (subT_bounds t count H0 H1 Hc).
    split; [assumption | lra].
  - rewrite remap_high by assumption. cbn [index parameter].
    split; [lia | lra].
  - rewrite remap_low by assumption. cbn [index parameter].
    split; [lia | lra].
Qed.

Lemma get_in_range {A : Type} (l : list A) (i : Z) :
  (0 <= i < Z.of_nat (length l))%Z -> exists a, get l i = Some a.
Proof.
  intros H. unfold get.
  destruct (Z.ltb_spec i 0) as [Hn|_]; [lia|].
  destruct (nth_error l (Z.to_nat i)) eqn:E; [eauto|].
  apply nth_error_None in E. lia.
Qed.

Lemma get_last {A : Type} (l : list A) (d : A) :
  l <> [] -> get l (Z.of_nat (length l) - 1) = Some (last l d).
Proof.
  intros Hne. unfold get.
  destruct (Z.ltb_spec (Z.of_nat (length l) - 1) 0) as [Hn|_].
  - destruct l; [contradiction | cbn [length] in Hn; lia].
  - replace (Z.to_nat (Z.of_nat (length l) - 1)) with (length l - 1)%nat by lia.
    clear -Hne. induction l as [|a [|b l'] IH]; [contradiction | reflexivity |].
    assert (IH' : nth_error (b :: l') (length (b :: l') - 1) = Some (last (b :: l') d))
      by (apply IH; discriminate).
    cbn [length] in IH' |- *. rewrite Nat.sub_succ, Nat.sub_0_r in IH' |- *.
    exact IH'.
Qed.

(** In exact arithmetic, for a segment count of at least 1 and any
    parameter t, the remap gives an index between 0 and count - 1 and a
    sub-parameter in [0,1], and the segment chain reads inside its list.
    Rounding breaks this just below t = 1: see
    [remapParameterToSubRange_index_reaches_count]. *)
Theorem remapParameterToSubRange_in_bounds (t : Q) (count : Z) :
  (1 <= count)%Z ->
  let r := remapParameterToSubRange t count in
  (0 <= index r <= count - 1)%Z /\
  0 <= parameter r <= 1 /\
  forall pts : list Vec2.t,
    Z.of_nat (length pts) = (count + 1)%Z ->
    exists a b : Vec2.t,
      get pts (index r) = Some a /\
      get pts (index r + 1) = Some b /\
      LineSegmentsInterpolator pts t = Some (Vec2.lerp a b (parameter r)).
Proof.
  intros Hc r. destruct (remap_bounds t count Hc) as [Hi Hp].
  fold r in Hi, Hp. split; [exact Hi|]. split; [exact Hp|].
  intros pts Hlen.
  destruct (get_in_range pts (index r)) as [a Ha]; [lia|].
  destruct (get_in_range pts (index r + 1)) as [b Hb]; [lia|].
  exists a, b. split; [exact Ha|]. split; [exact Hb|].
  unfold LineSegmentsInterpolator.
  replace (Z.of_nat (length pts) - 1)%Z with count by lia.
  destruct (Z.ltb_spec count 1) as [Hn|_]; [lia|].
  fold r. rewrite Ha, Hb. reflexivity.
Qed.

Lemma segment_chain_count (pts : list Vec2.t) :
  (2 <= length pts)%nat -> (Z.of_nat (length pts) - 1 <? 1)%Z = false.
Proof. intros H. apply Z.ltb_ge. lia. Qed.

Lemma get_head {A : Type} (l : list A) (d : A) :
  l <> [] -> get l 0 = Some (hd d l).
Proof. destruct l; [contradiction | reflexivity]. Qed.

Lemma segment_chain_low (pts : list Vec2.t) (t : Q) :
  (2 <= length pts)%nat -> t <= 0 ->
  exists v, LineSegmentsInterpolator pts t = Some v /\ v =v= hd Vec2.zero pts.
Proof.
  intros Hlen Ht. unfold LineSegmentsInterpolator.
  rewrite segment_chain_count, remap_low by assumption. cbn [index parameter].
  destruct pts as [|a [|b rest]]; cbn [length] in Hlen; try lia.
  cbn. eexists. split; [reflexivity | apply lerp_0].
Qed.

Lemma segment_chain_high (pts : list Vec2.t) (t : Q) :
  (2 <= length pts)%nat -> 1 <= t ->
  exists v, LineSegmentsInterpolator pts t = Some v /\ v =v= last pts Vec2.zero.
Proof.
  intros Hlen Ht. unfold LineSegmentsInterpolator.
  rewrite segment_chain_count, remap_high by assumption. cbn [index parameter].
  destruct (get_in_range pts (Z.of_nat (length pts) - 1 - 1)) as [a Ha]; [lia|].
  rewrite Ha.
  replace (Z.of_nat (length pts) - 1 - 1 + 1)%Z with (Z.of_nat (length pts) - 1)%Z by lia.
  rewrite (get_last pts Vec2.zero) by (destruct pts; [cbn in Hlen; lia | discriminate]).
  eexists. split; [reflexivity | apply lerp_1].
Qed.

Lemma segment_chain_four_half (a b c d : Vec2.t) :
  exists v, LineSegmentsInterpolator [a; b; c; d] (1 # 2) = Some v /\
            v =v= Vec2.lerp b c (1 # 2).
Proof.
  assert (E : remapParameterToSubRange (1 # 2) 3 = mkSubRange (3 # 6) 1)
    by (vm_compute; reflexivity).
  assert (F : LineSegmentsInterpolator [a; b; c; d] (1 # 2) =
              Some (Vec2.lerp b c
                      (parameter (remapParameterToSubRange (1 # 2) 3))))
    by reflexivity.
  rewrite F, E. cbn [parameter].
  eexists. split; [reflexivity|]. vec_unfold. split; ring.
Qed.

(** C8, as stated, fails: for the four points (0,0), (1,0), (3,0), (4,0)
    the segment chain at t = 1/2 gives (2,0), which is none of the control
    points. *)
Lemma segment_chain_four_half_off_points :
  exists v,
    LineSegmentsInterpolator
      [Vec2.mk 0 0; Vec2.mk 1 0; Vec2.mk 3 0; Vec2.mk 4 0] (1 # 2) = Some v /\
    v =v= Vec2.mk 2 0 /\
    forall p, In p [Vec2.mk 0 0; Vec2.mk 1 0; Vec2.mk 3 0; Vec2.mk 4 0] ->
              ~ v =v= p.
Proof.
  eexists. split; [reflexivity|]. split; [apply eqvb_spec; reflexivity|].
  intros p Hin [Hx _].
  cbn [In] in Hin.
  repeat (destruct Hin as [<-|Hin]; [vm_compute in Hx; discriminate Hx|]).
  contradiction.
Qed.

(** C8, amended.  For a list of at least two control points the segment
    chain gives the first point for every t <= 0 and the last point for
    every t >= 1; for four points a, b, c, d its value at t = 1/2 is the
    midpoint of the middle segment, halfway between b and c. *)
Theorem LineSegmentsInterpolator_ends_and_middle (pts : list Vec2.t) :
  (2 <= length pts)%nat ->
  (forall t, t <= 0 ->
     exists v, LineSegmentsInterpolator pts t = Some v /\ v =v= hd Vec2.zero pts) /\
  (forall t, 1 <= t ->
     exists v, LineSegmentsInterpolator pts t = Some v /\ v =v= last pts Vec2.zero) /\
  (forall a b c d, pts = [a; b; c; d] ->
     exists v, LineSegmentsInterpolator pts (1 # 2) = Some v /\
               v =v= Vec2.lerp b c (1 # 2) /\
               v =v= Vec2.scale (Vec2.add b c) (1 # 2)).
Proof.
  intros Hlen. split; [|split].
  - intros t Ht. apply segment_chain_low; assumption.
  - intros t Ht. apply segment_chain_high; assumption.
  - intros a b c d ->.
    destruct (segment_chain_four_half a b c d) as (v & Hv & Hmid).
    exists v. split; [exact Hv|]. split; [exact Hmid|].
    eapply eqv_trans; [exact Hmid|]. vec_unfold. split; ring.
Qed.

Lemma LineSegmentsInterpolator_ends_and_middle_witness :
  (exists v, LineSegmentsInterpolator
               [Vec2.mk 0 0; Vec2.mk 1 0; Vec2.mk 3 0; Vec2.mk 4 0] (-1 # 1) = Some v /\
             v =v= Vec2.mk 0 0) /\
  (exists v, LineSegmentsInterpolator
               [Vec2.mk 0 0; Vec2.mk 1 0; Vec2.mk 3 0; Vec2.mk 4 0] 2 = Some v /\
             v =v= Vec2.mk 4 0).
Proof.
  destruct (LineSegmentsInterpolator_ends_and_middle
              [Vec2.mk 0 0; Vec2.mk 1 0; Vec2.mk 3 0; Vec2.mk 4 0])
    as (Hlow & Hhigh & _); [cbn; lia|].
  split; [apply (Hlow (-1 # 1)) | apply (Hhigh 2)]; discriminate.
Defined.

(** ** Arc-length table *)


Section TableInvariant.

Variable sqrt : Q -> Q.
Hypothesis sqrt_nonneg : forall q : Q, 0 <= sqrt q.
Variables (points : list Point3D) (steps : nat).





End TableInvariant.







(** ** Arc-length lookup *)

Lemma get_Some_range {A : Type} (l : list A) (i : Z) (a : A) :
  get l i = Some a -> (0 <= i < Z.of_nat (length l))%Z.
Proof.
  unfold get. destruct (Z.ltb_spec i 0) as [Hn|Hp]; [discriminate|].
  intros H. assert (Hs : nth_error l (Z.to_nat i) <> None) by congruence.
  apply nth_error_Some in Hs. lia.
Qed.

Lemma increasing_example : increasing [0; 1; 2; 10].
Proof.
  intros i a b Ha Hb.
  do 3 (destruct i as [|i];
        [cbn in Ha, Hb; injection Ha as <-; injection Hb as <-; reflexivity|]).
  destruct i; discriminate Hb.
Qed.

Lemma brackets_example_unique (i : Z) : brackets [0; 1; 2; 10] 5 i -> i = 3%Z.
Proof.
  intros (lo & hi & Hlo & Hhi & Hle1 & Hle2).
  pose proof (get_Some_range _ _ _ Hlo) as R1.
  pose proof (get_Some_range _ _ _ Hhi) as R2.
  cbn [length Z.of_nat] in R1, R2.
  assert (Hi : i = 1%Z \/ i = 2%Z \/ i = 3%Z) by lia.
  destruct Hi as [-> | [-> | ->]]; [exfalso..|reflexivity];
    cbn in Hhi; injection Hhi as <-;
    apply Qle_bool_iff in Hle2; vm_compute in Hle2; discriminate Hle2.
Qed.

(** C6, on the code.  The table (0, 1, 2, 10) is strictly increasing and
    s = 5 lies strictly between 0 and its total 10; the only bracketing
    index is 3, where the documented interpolation gives 19/24.  The loop
    ends with [index] = 2, the last midpoint it tried, and the function
    returns 5/3, which is outside [0,1]. *)
Theorem findTForArcLength_uses_last_midpoint :
  let table := [0; 1; 2; 10] in
  increasing table /\ 0 < 5 /\ 5 < last table 0 /\
  brackets table 5 3 /\
  (forall i, brackets table 5 i -> i = 3%Z) /\
  searchLoop table 5 0 3 0 = 2%Z /\
  exists r e : Q,
    findTForArcLength table 5 = Some r /\ r == 5 # 3 /\ ~ r <= 1 /\
    interpolateInBracket table 5 3 = Some e /\ e == 19 # 24 /\ ~ r == e.
Proof.
  cbv zeta.
  split; [exact increasing_example|].
  split; [reflexivity|]. split; [reflexivity|].
  split; [exists 2, 10; repeat split; discriminate|].
  split; [exact brackets_example_unique|].
  split; [vm_compute; reflexivity|].
  eexists. eexists.
  split; [vm_compute; reflexivity|]. split; [reflexivity|].
  split; [intros H; apply Qle_bool_iff in H; vm_compute in H; discriminate H|].
  split; [vm_compute; reflexivity|]. split; [reflexivity|].
  intros H. vm_compute in H. discriminate H.
Qed.

(** On the same table the query s = 1/2 ends the loop with [index] = 0, so
    that [table[index - 1]] is read before the first entry and the result
    is not a number; on the two-entry table (0, 10) every query strictly
    inside does the same. *)
Lemma findTForArcLength_reads_before_table :
  findTForArcLength [0; 1; 2; 10] (1 # 2) = None /\
  findTForArcLength [0; 10] 5 = None.
Proof. split; vm_compute; reflexivity. Qed.

(** * Further properties of the code *)

(** ** Vec2 *)

(** X1.  [lerp] gives the start at amount 0, the end at amount 1 and the
    mean of the two at 1/2; it is not clamped: amount 2 gives the point as
    far beyond the end as the start is before it. *)
Theorem Vec2_lerp_values (a b : Vec2.t) :
  Vec2.lerp a b 0 =v= a /\
  Vec2.lerp a b 1 =v= b /\
  Vec2.lerp a b (1 # 2) =v= Vec2.scale (Vec2.add a b) (1 # 2) /\
  Vec2.lerp a b 2 =v= Vec2.sub (Vec2.scale b 2) a.
Proof. vec_unfold. repeat split; ring. Qed.

(** X2.  Axis by axis, [componentDiv] undoes [componentMul] where the
    divisor's component is not zero, and gives 0, whatever the dividend,
    where the divisor's component is zero. *)
Theorem Vec2_componentDiv_axes (v other : Vec2.t) :
  (~ Vec2.x other == 0 ->
     Vec2.x (Vec2.componentDiv (Vec2.componentMul v other) other) == Vec2.x v /\
     Vec2.x (Vec2.componentMul (Vec2.componentDiv v other) other) == Vec2.x v) /\
  (~ Vec2.y other == 0 ->
     Vec2.y (Vec2.componentDiv (Vec2.componentMul v other) other) == Vec2.y v /\
     Vec2.y (Vec2.componentMul (Vec2.componentDiv v other) other) == Vec2.y v) /\
  (Vec2.x other == 0 -> Vec2.x (Vec2.componentDiv v other) == 0) /\
  (Vec2.y other == 0 -> Vec2.y (Vec2.componentDiv v other) == 0).
Proof.
  unfold Vec2.componentDiv. vec_unfold.
  split; [|split; [|split]]; intros H.
  - rewrite (Qeq_bool_false _ _ H). split; field; exact H.
  - rewrite (Qeq_bool_false _ _ H). split; field; exact H.
  - rewrite (Qeq_bool_true _ _ H). reflexivity.
  - rewrite (Qeq_bool_true _ _ H). reflexivity.
Qed.

Lemma Vec2_componentDiv_axes_witness :
  Vec2.x (Vec2.componentDiv (Vec2.componentMul (Vec2.mk 3 8) (Vec2.mk 2 0)) (Vec2.mk 2 0))
    == 3 /\
  Vec2.y (Vec2.componentDiv (Vec2.mk 3 8) (Vec2.mk 2 0)) == 0.
Proof.
  destruct (Vec2_componentDiv_axes (Vec2.mk 3 8) (Vec2.mk 2 0))
    as (Hx & _ & _ & Hy).
  split.
  - apply Hx. intros H. vm_compute in H. discriminate H.
  - apply Hy. reflexivity.
Defined.

(** X4.  [divScale] by a scalar that is not zero undoes [scale] by it, and
    [divScale] by zero gives the zero vector. *)
Theorem Vec2_divScale_undoes_scale (v : Vec2.t) (scalar : Q) :
  ~ scalar == 0 ->
  Vec2.divScale (Vec2.scale v scalar) scalar =v= v /\
  Vec2.scale (Vec2.divScale v scalar) scalar =v= v /\
  Vec2.divScale v 0 = Vec2.zero.
Proof.
  intros Hs. unfold Vec2.divScale.
  rewrite (Qeq_bool_false _ _ Hs). vec_unfold.
  repeat split; try (field; assumption).
Qed.

Lemma Vec2_divScale_undoes_scale_witness :
  Vec2.divScale (Vec2.scale (Vec2.mk 3 (-5)) 4) 4 =v= Vec2.mk 3 (-5) /\
  Vec2.scale (Vec2.divScale (Vec2.mk 3 (-5)) 4) 4 =v= Vec2.mk 3 (-5) /\
  Vec2.divScale (Vec2.mk 3 (-5)) 0 = Vec2.zero.
Proof.
  apply (Vec2_divScale_undoes_scale (Vec2.mk 3 (-5)) 4).
  intros H; vm_compute in H; discriminate H.
Defined.

(** X5.  [crossAxisZ] turns a vector by a right angle: the result is
    perpendicular to the vector, has the same squared magnitude, and applied
    twice it gives the opposite vector. *)
Theorem Vec2_crossAxisZ_quarter_turn (v : Vec2.t) :
  Vec2.dot v (Vec2.crossAxisZ v) == 0 /\
  Vec2.magnitudeSquared (Vec2.crossAxisZ v) == Vec2.magnitudeSquared v /\
  Vec2.crossAxisZ (Vec2.crossAxisZ v) =v= Vec2.negate v /\
  Vec2.crossMagnitude v (Vec2.crossAxisZ v) == - Vec2.magnitudeSquared v.
Proof.
  unfold Vec2.magnitudeSquared, Vec2.dot, Vec2.crossAxisZ, Vec2.negate,
    Vec2.crossMagnitude.
  vec_unfold. repeat split; ring.
Qed.

Lemma eqv_add (u u' v v' : Vec2.t) :
  u =v= u' -> v =v= v' -> Vec2.add u v =v= Vec2.add u' v'.
Proof.
  intros [Hx Hy] [Hx' Hy']. vec_unfold. rewrite Hx, Hy, Hx', Hy'.
  split; reflexivity.
Qed.

Lemma linearCombination_from (terms : list (Q * Vec2.t)) (acc : Vec2.t) :
  fold_left (fun result term => Vec2.add result (Vec2.scale (snd term) (fst term)))
            terms acc
  =v= Vec2.add acc (Vec2.linearCombination terms).
Proof.
  unfold Vec2.linearCombination. revert acc.
  induction terms as [|term terms IH]; intros acc.
  - vec_unfold. split; ring.
  - cbn [fold_left]. eapply eqv_trans; [apply IH|].
    eapply eqv_trans;
      [|apply eqv_add; [apply eqv_refl | apply eqv_sym, IH]].
    vec_unfold. split; ring.
Qed.

(** X6.  [linearCombination] is the weighted sum of its terms: joining two
    lists of terms adds their combinations, one term gives the scaled vector,
    and no term gives the zero vector. *)
Theorem Vec2_linearCombination_sum (terms more : list (Q * Vec2.t)) (c : Q) (v : Vec2.t) :
  Vec2.linearCombination (terms ++ more)
    =v= Vec2.add (Vec2.linearCombination terms) (Vec2.linearCombination more) /\
  Vec2.linearCombination ((c, v) :: more)
    =v= Vec2.add (Vec2.scale v c) (Vec2.linearCombination more) /\
  Vec2.linearCombination [] = Vec2.zero.
Proof.
  split; [|split; [|reflexivity]].
  - unfold Vec2.linearCombination at 1. rewrite fold_left_app.
    apply linearCombination_from.
  - unfold Vec2.linearCombination at 1. cbn [fold_left].
    eapply eqv_trans; [apply linearCombination_from|].
    vec_unfold. split; ring.
Qed.

Lemma Qsquare_nonneg (q : Q) : 0 <= q * q.
Proof.
  destruct (Qlt_le_dec q 0) as [H|H].
  - setoid_replace (q * q) with ((- q) * (- q)) by ring.
    apply Qmult_le_0_compat; lra.
  - apply Qmult_le_0_compat; assumption.
Qed.

Lemma Qsquares_zero (p q : Q) : p * p + q * q == 0 -> p == 0 /\ q == 0.
Proof.
  intros H. pose proof (Qsquare_nonneg p) as Hp. pose proof (Qsquare_nonneg q) as Hq.
  assert (Hp0 : p * p == 0) by lra. assert (Hq0 : q * q == 0) by lra.
  split.
  - destruct (Qmult_integral _ _ Hp0); assumption.
  - destruct (Qmult_integral _ _ Hq0); assumption.
Qed.

(** X7.  The squared distance is symmetric and never negative, and it is
    zero exactly for equal vectors. *)
Theorem Vec2_distanceSquared_metric (v w : Vec2.t) :
  Vec2.distanceSquared v w == Vec2.distanceSquared w v /\
  0 <= Vec2.distanceSquared v w /\
  (Vec2.distanceSquared v w == 0 <-> v =v= w).
Proof.
  unfold Vec2.distanceSquared, Vec2.magnitudeSquared, Vec2.dot. vec_unfold.
  destruct v as [vx vy], w as [wx wy]. cbn [Vec2.x Vec2.y].
  pose proof (Qsquare_nonneg (vx - wx)) as Hx2.
  pose proof (Qsquare_nonneg (vy - wy)) as Hy2.
  split; [ring|]. split; [lra|]. split.
  - intros H. apply Qsquares_zero in H. destruct H as [Hx Hy]. split; lra.
  - intros [Hx Hy]. rewrite Hx, Hy. ring.
Qed.

(** ** Rect *)

Lemma Qmin_Qmax_cases (p q : Q) :
  (p <= q /\ Qmin p q == p /\ Qmax p q == q) \/
  (q < p /\ Qmin p q == q /\ Qmax p q == p).
Proof.
  destruct (Qlt_le_dec q p) as [H|H].
  - right. split; [exact H|]. split; [apply Q.min_r | apply Q.max_l]; lra.
  - left. split; [exact H|]. split; [apply Q.min_l | apply Q.max_r]; lra.
Qed.

(** X8.  [withCorners] gives a rectangle of non-negative width and height
    that holds both corners, whichever order they are given in: swapping the
    two corners gives the same rectangle. *)
Theorem Rect_withCorners_canonical (a b : Vec2.t) :
  let r := Rect.withCorners a b in
  0 <= Rect.width r /\ 0 <= Rect.height r /\
  Vec2.x (Rect.origin r) <= Vec2.x a <= Vec2.x (Rect.farCorner r) /\
  Vec2.x (Rect.origin r) <= Vec2.x b <= Vec2.x (Rect.farCorner r) /\
  Vec2.y (Rect.origin r) <= Vec2.y a <= Vec2.y (Rect.farCorner r) /\
  Vec2.y (Rect.origin r) <= Vec2.y b <= Vec2.y (Rect.farCorner r) /\
  Rect.origin (Rect.withCorners b a) =v= Rect.origin r /\
  Rect.size (Rect.withCorners b a) =v= Rect.size r.
Proof.
  cbv zeta.
  unfold Rect.withCorners, Rect.create, Rect.width, Rect.height, Rect.farCorner,
    Rect.convertNormalizedCoordinate.
  cbn [Rect.origin Rect.size]. vec_unfold.
  destruct (Qmin_Qmax_cases (Vec2.x a) (Vec2.x b)) as [(H1 & E1 & E2) | (H1 & E1 & E2)];
  destruct (Qmin_Qmax_cases (Vec2.y a) (Vec2.y b)) as [(H2 & E3 & E4) | (H2 & E3 & E4)];
  destruct (Qmin_Qmax_cases (Vec2.x b) (Vec2.x a)) as [(H3 & E5 & E6) | (H3 & E5 & E6)];
  destruct (Qmin_Qmax_cases (Vec2.y b) (Vec2.y a)) as [(H4 & E7 & E8) | (H4 & E7 & E8)];
  rewrite ?E1, ?E2, ?E3, ?E4, ?E5, ?E6, ?E7, ?E8;
  repeat split; lra.
Qed.

Lemma collapseAxis_kept (min max : Q) :
  min <= max -> Rect.collapseAxis min max = (min, max).
Proof.
  intros H. unfold Rect.collapseAxis, Qlt_bool.
  apply Qle_bool_iff in H. rewrite H. reflexivity.
Qed.

Lemma collapseAxis_crossed (min max : Q) :
  max < min ->
  Rect.collapseAxis min max = ((max + min) / 2, (max + min) / 2).
Proof.
  intros H. unfold Rect.collapseAxis, Qlt_bool.
  apply Qle_bool_false in H. rewrite H. reflexivity.
Qed.

Lemma withCorners_ordered_axis (lo hi : Q) :
  lo <= hi -> Qmin lo hi == lo /\ Qmax lo hi - Qmin lo hi == hi - lo.
Proof.
  intros H. rewrite (Q.min_l lo hi), (Q.max_r lo hi) by exact H.
  split; reflexivity.
Qed.

Lemma inset_axis (min max : Q) :
  0 <= Qmax (fst (Rect.collapseAxis min max)) (snd (Rect.collapseAxis min max))
       - Qmin (fst (Rect.collapseAxis min max)) (snd (Rect.collapseAxis min max)) /\
  (min <= max ->
     Qmin (fst (Rect.collapseAxis min max)) (snd (Rect.collapseAxis min max)) == min /\
     Qmax (fst (Rect.collapseAxis min max)) (snd (Rect.collapseAxis min max))
       - Qmin (fst (Rect.collapseAxis min max)) (snd (Rect.collapseAxis min max))
     == max - min) /\
  (max < min ->
     Qmin (fst (Rect.collapseAxis min max)) (snd (Rect.collapseAxis min max))
     == (max + min) / 2 /\
     Qmax (fst (Rect.collapseAxis min max)) (snd (Rect.collapseAxis min max))
       - Qmin (fst (Rect.collapseAxis min max)) (snd (Rect.collapseAxis min max))
     == 0).
Proof.
  destruct (Qlt_le_dec max min) as [H|H].
  - rewrite (collapseAxis_crossed min max H). cbn [fst snd].
    destruct (withCorners_ordered_axis ((max + min) / 2) ((max + min) / 2)) as [E1 E2];
      [lra|].
    rewrite E2, E1. split; [lra|]. split; [intros; lra|].
    intros _. split; [reflexivity | ring].
  - rewrite (collapseAxis_kept min max H). cbn [fst snd].
    destruct (withCorners_ordered_axis min max H) as [E1 E2].
    rewrite E2, E1. split; [lra|]. split; [|intros; lra].
    intros _. split; reflexivity.
Qed.

(** X9.  [insetEach] moves each edge inwards by its amount.  With [lo] and
    [hi] the moved edges of an axis: when they did not cross, the result
    starts at [lo] and extends to [hi]; when they crossed, the result has
    extent 0 on that axis and sits at their mean.  The result never has a
    negative width or height. *)
Theorem Rect_insetEach_axes (r : Rect.t) (i : Rect.Insets) :
  let loX := Vec2.x (Rect.origin r) + Rect.left i in
  let hiX := Vec2.x (Rect.origin r) + Rect.width r - Rect.right i in
  let loY := Vec2.y (Rect.origin r) + Rect.top i in
  let hiY := Vec2.y (Rect.origin r) + Rect.height r - Rect.bottom i in
  let res := Rect.insetEach r i in
  0 <= Rect.width res /\ 0 <= Rect.height res /\
  (loX <= hiX ->
     Vec2.x (Rect.origin res) == loX /\ Rect.width res == hiX - loX) /\
  (hiX < loX ->
     Vec2.x (Rect.origin res) == (loX + hiX) / 2 /\ Rect.width res == 0) /\
  (loY <= hiY ->
     Vec2.y (Rect.origin res) == loY /\ Rect.height res == hiY - loY) /\
  (hiY < loY ->
     Vec2.y (Rect.origin res) == (loY + hiY) / 2 /\ Rect.height res == 0).
Proof.
  cbv zeta.
  unfold Rect.insetEach, Rect.withCorners, Rect.create, Rect.width, Rect.height,
    Rect.convertNormalizedCoordinate.
  cbn [Rect.origin Rect.size]. vec_unfold.
  destruct (inset_axis
              (Vec2.x (Rect.origin r) + Vec2.x (Rect.size r) * 0 + Rect.left i)
              (Vec2.x (Rect.origin r) + Vec2.x (Rect.size r) * 1 - Rect.right i))
    as (Nx & Kx & Cx).
  destruct (inset_axis
              (Vec2.y (Rect.origin r) + Vec2.y (Rect.size r) * 0 + Rect.top i)
              (Vec2.y (Rect.origin r) + Vec2.y (Rect.size r) * 1 - Rect.bottom i))
    as (Ny & Ky & Cy).
  split; [exact Nx|]. split; [exact Ny|].
  split; [intros H; destruct Kx as [E1 E2]; [lra | rewrite E2, E1; split; lra]|].
  split; [intros H; destruct Cx as [E1 E2];
          [lra | rewrite E2, E1; split; [field | reflexivity]]|].
  split; [intros H; destruct Ky as [E1 E2]; [lra | rewrite E2, E1; split; lra]|].
  intros H; destruct Cy as [E1 E2];
    [lra | rewrite E2, E1; split; [field | reflexivity]].
Qed.

Lemma Rect_insetEach_axes_witness :
  let res := Rect.insetEach (Rect.create 0 0 10 4) (Rect.mkInsets 1 2 3 5) in
  Vec2.x (Rect.origin res) == 1 /\ Rect.width res == 7 /\
  Vec2.y (Rect.origin res) == 1 /\ Rect.height res == 0.
Proof.
  destruct (Rect_insetEach_axes (Rect.create 0 0 10 4) (Rect.mkInsets 1 2 3 5))
    as (_ & _ & Kx & _ & _ & Cy).
  destruct Kx as [E1 E2]; [vm_compute; discriminate|].
  destruct Cy as [E3 E4]; [vm_compute; reflexivity|].
  cbv zeta. rewrite E1, E2, E3, E4. repeat split; reflexivity.
Defined.

(** X10.  [convertNormalizedCoordinate] sends (0,0) to the origin and (1,1)
    to the origin plus the size, the [midpoint] is halfway between the origin
    and the far corner, and the conversion commutes with [lerp]: a point
    between two normalized points goes to the point between their images. *)
Theorem Rect_convertNormalizedCoordinate_affine (r : Rect.t) (p q : Vec2.t) (amount : Q) :
  Rect.convertNormalizedCoordinate r (Vec2.mk 0 0) =v= Rect.origin r /\
  Rect.farCorner r =v= Vec2.add (Rect.origin r) (Rect.size r) /\
  Rect.midpoint r =v= Vec2.lerp (Rect.origin r) (Rect.farCorner r) (1 # 2) /\
  Rect.convertNormalizedCoordinate r (Vec2.lerp p q amount)
    =v= Vec2.lerp (Rect.convertNormalizedCoordinate r p)
                  (Rect.convertNormalizedCoordinate r q) amount.
Proof.
  unfold Rect.midpoint, Rect.farCorner, Rect.convertNormalizedCoordinate.
  vec_unfold. repeat split; ring.
Qed.

(** ** Matrix *)

Lemma nth_error_map_seq {A : Type} (f : nat -> A) (n i : nat) :
  (i < n)%nat -> nth_error (map f (seq 0 n)) i = Some (f i).
Proof.
  intros H. rewrite nth_error_map, nth_error_seq.
  destruct (Nat.ltb_spec i n) as [_|Hn]; [reflexivity | lia].
Qed.

Lemma map_nth_error_seq {A : Type} (l : list A) :
  map (fun i => nth_error l i) (seq 0 (length l)) = map Some l.
Proof.
  induction l as [|a l IH]; [reflexivity|].
  cbn [length seq map]. f_equal.
  rewrite <- seq_shift, map_map. exact IH.
Qed.

Lemma map_nth_seq {A B : Type} (f : A -> B) (l : list A) (d : A) :
  map (fun i => f (nth i l d)) (seq 0 (length l)) = map f l.
Proof.
  induction l as [|a l IH]; [reflexivity|].
  cbn [length seq map]. f_equal.
  rewrite <- seq_shift, map_map. exact IH.
Qed.

Lemma at_in_range (m : Matrix.t) (R row column : nat) :
  Forall (fun c => length c = R) m ->
  (column < length m)%nat -> (row < R)%nat ->
  Matrix.at_ m row column = Some (nth row (nth column m []) 0).
Proof.
  intros Hrect Hc Hr.
  unfold Matrix.at_, Matrix.atColumnRow, Matrix.columnAtIndex.
  rewrite (nth_error_nth' m [] Hc).
  apply nth_error_nth'.
  rewrite Forall_forall in Hrect. rewrite (Hrect (nth column m [])); [exact Hr|].
  apply nth_In, Hc.
Qed.

Lemma rows_rectangular (m : Matrix.t) (R : nat) :
  Forall (fun c => length c = R) m -> (1 <= length m)%nat -> Matrix.rows m = R.
Proof.
  intros Hrect Hc. destruct m as [|c m]; [cbn in Hc; lia|].
  cbn. apply Forall_inv in Hrect. exact Hrect.
Qed.

(** The columns of the transposed matrix, as numbers. *)
Lemma transpose_entries (m : Matrix.t) (R : nat) :
  Forall (fun c => length c = R) m -> (1 <= length m)%nat ->
  Matrix.transpose m =
  Matrix.inject
    (map (fun j => map (fun i => nth j (nth i m []) 0) (seq 0 (length m)))
         (seq 0 R)).
Proof.
  intros Hrect Hc.
  unfold Matrix.transpose, Matrix.withProvider, Matrix.withColumnProvider,
    Matrix.inject, Matrix.columns.
  rewrite (rows_rectangular m R Hrect Hc), map_map.
  apply map_ext_in. intros j Hj. apply in_seq in Hj.
  rewrite map_map. apply map_ext_in. intros i Hi. apply in_seq in Hi.
  apply (at_in_range m R); [exact Hrect | lia | lia].
Qed.

(** X11.  Transposing twice gives the matrix back, for a matrix with at
    least one column and at least one row whose columns all have the same
    length: the transposed matrix has the two dimensions swapped and all its
    entries are numbers.  A matrix with columns but no row is different: its
    transpose has no column at all, so the number of columns is lost. *)
Theorem Matrix_transpose_involution (m : Matrix.t) (R : nat) :
  Forall (fun c => length c = R) m -> (1 <= length m)%nat -> (1 <= R)%nat ->
  (exists mt : Matrix.t,
     Matrix.transpose m = Matrix.inject mt /\
     Matrix.rows mt = Matrix.columns m /\
     Matrix.columns mt = Matrix.rows m /\
     Matrix.transpose mt = Matrix.inject m) /\
  (forall C : nat, Matrix.transpose (repeat [] C) = []).
Proof.
  intros Hrect Hc HR. split.
  - set (mt := map (fun j => map (fun i => nth j (nth i m []) 0) (seq 0 (length m)))
                   (seq 0 R)).
    assert (Hmt : Forall (fun c => length c = length m) mt).
    { apply Forall_forall. intros c Hin. apply in_map_iff in Hin.
      destruct Hin as (j & <- & _). rewrite length_map, length_seq. reflexivity. }
    assert (Hlen : length mt = R) by (unfold mt; rewrite length_map, length_seq; reflexivity).
    exists mt. split; [apply transpose_entries; assumption|].
    split; [apply rows_rectangular; [exact Hmt | lia]|].
    split; [unfold Matrix.columns; rewrite (rows_rectangular m R Hrect Hc); exact Hlen|].
    rewrite (transpose_entries mt (length m) Hmt) by lia.
    unfold Matrix.inject. f_equal. rewrite Hlen.
    transitivity (map (fun i => nth i m []) (seq 0 (length m)));
      [|rewrite (map_nth_seq (fun c => c) m []); apply map_id].
    apply map_ext_in. intros i Hi. apply in_seq in Hi.
    assert (Hcol : length (nth i m []) = R).
    { rewrite Forall_forall in Hrect. apply Hrect, nth_In. lia. }
    transitivity (map (fun j => nth j (nth i m []) 0) (seq 0 (length (nth i m []))));
      [|rewrite (map_nth_seq (fun q => q) (nth i m []) 0); apply map_id].
    rewrite Hcol.
    apply map_ext_in. intros j Hj. apply in_seq in Hj.
    unfold mt.
    rewrite (nth_indep _ [] (map (fun i0 => nth 0%nat (nth i0 m []) 0) (seq 0 (length m))))
      by (rewrite length_map, length_seq; lia).
    rewrite (map_nth (fun j0 => map (fun i0 => nth j0 (nth i0 m []) 0) (seq 0 (length m)))
                     (seq 0 R) 0%nat j).
    rewrite seq_nth by lia. cbn [Nat.add].
    rewrite (nth_indep _ 0 (nth j (nth 0%nat m []) 0))
      by (rewrite length_map, length_seq; lia).
    rewrite (map_nth (fun i0 => nth j (nth i0 m []) 0) (seq 0 (length m)) 0%nat i).
    rewrite seq_nth by lia. reflexivity.
  - intros C. unfold Matrix.transpose, Matrix.withProvider, Matrix.withColumnProvider.
    replace (Matrix.rows (repeat [] C)) with 0%nat by (destruct C; reflexivity).
    reflexivity.
Qed.

Lemma Matrix_transpose_involution_witness :
  (exists mt : Matrix.t,
     Matrix.transpose [[1; 2; 3]; [4; 5; 6]] = Matrix.inject mt /\
     Matrix.rows mt = 2%nat /\
     Matrix.columns mt = 3%nat /\
     Matrix.transpose mt = Matrix.inject [[1; 2; 3]; [4; 5; 6]]) /\
  (forall C : nat, Matrix.transpose (repeat [] C) = []).
Proof.
  apply (Matrix_transpose_involution [[1; 2; 3]; [4; 5; 6]] 3).
  - repeat constructor.
  - cbn. lia.
  - lia.
Defined.

(** One step of the [reduce] in [VecNDot]. *)
Lemma VecNDot_unfold (a : list num) (b : list Q) :
  VecNDot a b =
  fold_left (fun accum vi => nadd accum (nmul (snd vi) (nth_error b (fst vi))))
            (combine (seq 0 (length a)) a) (Some 0).
Proof. reflexivity. Qed.

Lemma dot_fold_NaN (b : list Q) (l : list (nat * num)) :
  fold_left (fun accum vi => nadd accum (nmul (snd vi) (nth_error b (fst vi)))) l None
  = None.
Proof. induction l as [|vi l IH]; [reflexivity | exact IH]. Qed.

Lemma nadd_NaN_r (a : num) : nadd a None = None.
Proof. destruct a; reflexivity. Qed.

Lemma nmul_NaN_r (a : num) : nmul a None = None.
Proof. destruct a; reflexivity. Qed.

Lemma dot_fold_short (b : list Q) (a : list num) (k : nat) (acc : num) :
  (k <= length b < k + length a)%nat ->
  fold_left (fun accum vi => nadd accum (nmul (snd vi) (nth_error b (fst vi))))
            (combine (seq k (length a)) a) acc = None.
Proof.
  revert k acc. induction a as [|v a IH]; intros k acc H; cbn [length] in H; [lia|].
  cbn [length seq combine fold_left fst snd].
  destruct (Nat.eq_dec k (length b)) as [E|E].
  - assert (Hn : nth_error b k = None) by (apply nth_error_None; lia).
    rewrite Hn, nmul_NaN_r, nadd_NaN_r. apply dot_fold_NaN.
  - apply IH. lia.
Qed.

Lemma dot_fold_ext (b b' : list Q) (a : list num) (k : nat) (acc : num) :
  (forall i, (k <= i < k + length a)%nat -> nth_error b i = nth_error b' i) ->
  fold_left (fun accum vi => nadd accum (nmul (snd vi) (nth_error b (fst vi))))
            (combine (seq k (length a)) a) acc =
  fold_left (fun accum vi => nadd accum (nmul (snd vi) (nth_error b' (fst vi))))
            (combine (seq k (length a)) a) acc.
Proof.
  revert k acc. induction a as [|v a IH]; intros k acc H; [reflexivity|].
  cbn [length seq combine fold_left fst snd].
  rewrite (H k) by (cbn [length]; lia).
  apply IH. intros i Hi. apply H. cbn [length]. lia.
Qed.

Lemma length_rowAtIndex (m : Matrix.t) (row : nat) :
  length (Matrix.rowAtIndex m row) = Matrix.columns m.
Proof.
  unfold Matrix.rowAtIndex, Matrix.columns. rewrite length_map, length_seq.
  reflexivity.
Qed.

(** X12.  [mulVecN] does not reject a vector of the wrong length.  With
    fewer components than the matrix has columns every component of the
    product is NaN; components beyond the number of columns are ignored. *)
Theorem Matrix_mulVecN_wrong_length (m : Matrix.t) (vec extra : list Q) :
  ((length vec < Matrix.columns m)%nat ->
     Matrix.mulVecN m vec = repeat None (Matrix.rows m)) /\
  ((Matrix.columns m <= length vec)%nat ->
     Matrix.mulVecN m (vec ++ extra) = Matrix.mulVecN m vec).
Proof.
  split; intros H; unfold Matrix.mulVecN.
  - transitivity (map (fun _ : nat => @None Q) (seq 0 (Matrix.rows m))).
    + apply map_ext. intros row. rewrite VecNDot_unfold.
      apply dot_fold_short. rewrite length_rowAtIndex. lia.
    + generalize 0%nat. induction (Matrix.rows m) as [|n IH]; intros k;
        [reflexivity | cbn; f_equal; apply IH].
  - apply map_ext. intros row. rewrite !VecNDot_unfold.
    apply dot_fold_ext. intros i Hi. rewrite length_rowAtIndex in Hi.
    apply nth_error_app1. lia.
Qed.

Lemma Matrix_mulVecN_wrong_length_witness :
  Matrix.mulVecN [[1; 2]; [3; 4]; [5; 6]] [7; 8] = [None; None] /\
  Matrix.mulVecN [[1; 2]; [3; 4]] ([7; 8] ++ [9]) = Matrix.mulVecN [[1; 2]; [3; 4]] [7; 8].
Proof.
  split.
  - destruct (Matrix_mulVecN_wrong_length [[1; 2]; [3; 4]; [5; 6]] [7; 8] [])
      as [Hshort _].
    apply Hshort. unfold Matrix.columns. cbn. lia.
  - destruct (Matrix_mulVecN_wrong_length [[1; 2]; [3; 4]] [7; 8] [9])
      as [_ Hlong].
    apply Hlong. unfold Matrix.columns. cbn. lia.
Defined.

Lemma at_withProvider (rows columns : nat) (f : nat -> nat -> Q) (row column : nat) :
  (row < rows)%nat -> (column < columns)%nat ->
  Matrix.at_ (Matrix.withProvider rows columns f) row column = Some (f row column).
Proof.
  intros Hr Hc.
  unfold Matrix.at_, Matrix.atColumnRow, Matrix.columnAtIndex,
    Matrix.withProvider, Matrix.withColumnProvider.
  rewrite (nth_error_map_seq
             (fun column => map (fun row => f row column) (seq 0 rows))
             columns column Hc).
  apply (nth_error_map_seq (fun row => f row column) rows row Hr).
Qed.

Lemma rows_withProvider {A : Type} (rows columns : nat) (f : nat -> nat -> A) :
  (1 <= columns)%nat ->
  match Matrix.withProvider rows columns f with
  | c :: _ => length c
  | [] => 0%nat
  end = rows.
Proof.
  intros H. destruct columns as [|c]; [lia|].
  unfold Matrix.withProvider, Matrix.withColumnProvider.
  cbn [seq map]. rewrite length_map, length_seq. reflexivity.
Qed.

Lemma rowAtIndex_identity (n i : nat) :
  (i < n)%nat ->
  Matrix.rowAtIndex (Matrix.identity n) i =
  map (fun j => Some (if (i =? j)%nat then 1 else 0)) (seq 0 n).
Proof.
  intros Hi. unfold Matrix.rowAtIndex.
  replace (length (Matrix.identity n)) with n
    by (unfold Matrix.identity, Matrix.withProvider, Matrix.withColumnProvider;
        rewrite length_map, length_seq; reflexivity).
  apply map_ext_in. intros j Hj. apply in_seq in Hj.
  unfold Matrix.identity. apply at_withProvider; lia.
Qed.

(** The dot product of row [i] of the identity with [v], taken from index
    [k] on: it adds [v[i]] when [i] is among the indices left. *)
Lemma dot_fold_delta (v : list Q) (i len k : nat) (s : Q) :
  (k + len <= length v)%nat ->
  exists r : Q,
    fold_left (fun accum vi => nadd accum (nmul (snd vi) (nth_error v (fst vi))))
              (combine (seq k len)
                       (map (fun j => Some (if (i =? j)%nat then 1 else 0)) (seq k len)))
              (Some s) = Some r /\
    r == s + (if ((k <=? i) && (i <? k + len))%nat then nth i v 0 else 0).
Proof.
  revert k s. induction len as [|len IH]; intros k s Hlen.
  - exists s. split; [reflexivity|].
    destruct (Nat.leb_spec k i), (Nat.ltb_spec i (k + 0)); cbn [andb]; try lia; ring.
  - cbn [seq map combine fold_left fst snd].
    rewrite (nth_error_nth' v 0) by lia. cbn [nmul nadd].
    destruct (IH (S k) (s + (if (i =? k)%nat then 1 else 0) * nth k v 0)) as (r & Hr & Er);
      [lia|].
    exists r. split; [exact Hr|]. rewrite Er.
    destruct (Nat.eqb_spec i k) as [E|Hne],
             (Nat.leb_spec (S k) i), (Nat.ltb_spec i (S k + len)),
             (Nat.leb_spec k i), (Nat.ltb_spec i (k + S len));
      cbn [andb]; try lia; try rewrite E; ring.
Qed.

Lemma mulVecN_identity_entry (n : nat) (v : list Q) (i : nat) :
  length v = n -> (i < n)%nat ->
  exists r : Q,
    nth_error (Matrix.mulVecN (Matrix.identity n) v) i = Some (Some r) /\
    r == nth i v 0.
Proof.
  intros Hv Hi. unfold Matrix.mulVecN.
  assert (Hrows : Matrix.rows (Matrix.identity n) = n).
  { unfold Matrix.identity. apply (rows_withProvider n n). lia. }
  rewrite Hrows, nth_error_map_seq by exact Hi.
  rewrite VecNDot_unfold, rowAtIndex_identity by exact Hi.
  rewrite length_map, length_seq.
  destruct (dot_fold_delta v i n 0 0) as (r & Hr & Er); [lia|].
  exists r. split; [f_equal; exact Hr|].
  rewrite Er. cbn [Nat.add Nat.leb andb].
  destruct (Nat.ltb_spec i n); [ring | lia].
Qed.

(** X13.  The identity matrix is neutral: the product of [identity n] with
    a vector of [n] numbers has [n] components, each equal to the vector's,
    and its product with a matrix of [n] rows has, column by column, the
    entries of that matrix. *)
Theorem Matrix_identity_neutral (n : nat) (v : list Q) (m : Matrix.t) :
  length v = n -> Forall (fun c => length c = n) m ->
  length (Matrix.mulVecN (Matrix.identity n) v) = n /\
  (forall i, (i < n)%nat ->
     exists r : Q,
       nth_error (Matrix.mulVecN (Matrix.identity n) v) i = Some (Some r) /\
       r == nth i v 0) /\
  length (Matrix.mul (Matrix.identity n) m) = length m /\
  (forall column row, (column < length m)%nat -> (row < n)%nat ->
     exists (c : list num) (r : Q),
       nth_error (Matrix.mul (Matrix.identity n) m) column = Some c /\
       nth_error c row = Some (Some r) /\
       r == nth row (nth column m []) 0).
Proof.
  intros Hv Hm.
  assert (Hrows : Matrix.rows (Matrix.identity n) = n).
  { destruct n as [|n']; [reflexivity|].
    unfold Matrix.identity. apply (rows_withProvider (S n') (S n')). lia. }
  split; [unfold Matrix.mulVecN; rewrite Hrows, length_map, length_seq; reflexivity|].
  split; [intros i Hi; apply mulVecN_identity_entry; assumption|].
  split; [unfold Matrix.mul, Matrix.withColumnProvider, Matrix.columns;
          rewrite length_map, length_seq; reflexivity|].
  intros column row Hc Hr.
  assert (Hcol : length (nth column m []) = n).
  { rewrite Forall_forall in Hm. apply Hm, nth_In, Hc. }
  destruct (mulVecN_identity_entry n (nth column m []) row Hcol Hr) as (r & Hn & Er).
  exists (Matrix.mulVecN (Matrix.identity n) (nth column m [])), r.
  split; [|split; assumption].
  unfold Matrix.mul, Matrix.withColumnProvider, Matrix.columns.
  rewrite nth_error_map_seq by exact Hc.
  unfold Matrix.columnAtIndex. rewrite (nth_error_nth' m [] Hc). reflexivity.
Qed.

Lemma Matrix_identity_neutral_witness :
  length (Matrix.mulVecN (Matrix.identity 2) [5; 7]) = 2%nat /\
  (exists r : Q,
     nth_error (Matrix.mulVecN (Matrix.identity 2) [5; 7]) 1 = Some (Some r) /\
     r == 7) /\
  (exists (c : list num) (r : Q),
     nth_error (Matrix.mul (Matrix.identity 2) [[1; 2]; [3; 4]; [5; 6]]) 2 = Some c /\
     nth_error c 0 = Some (Some r) /\ r == 5).
Proof.
  destruct (Matrix_identity_neutral 2 [5; 7] [[1; 2]; [3; 4]; [5; 6]])
    as (Hlen & Hvec & _ & Hmat); [reflexivity | repeat constructor |].
  split; [exact Hlen|]. split.
  - apply (Hvec 1%nat). lia.
  - apply (Hmat 2%nat 0%nat); cbn; lia.
Defined.

(** X14.  [mulVec2] with a 2x2 matrix sends (x, y) to x times the first
    column plus y times the second, so the columns given to
    [withVec2Columns] are the images of (1,0) and (0,1); with the 2x2 or
    3x3 identity it gives the vector back. *)
Theorem Matrix_mulVec2_columns (first second v : Vec2.t) :
  (exists r : Vec2.t,
     Matrix.mulVec2 (Matrix.withVec2Columns first second) v = Some r /\
     r =v= Vec2.add (Vec2.scale first (Vec2.x v)) (Vec2.scale second (Vec2.y v))) /\
  (exists r : Vec2.t, Matrix.mulVec2 (Matrix.identity 2) v = Some r /\ r =v= v) /\
  (exists r : Vec2.t, Matrix.mulVec2 (Matrix.identity 3) v = Some r /\ r =v= v).
Proof.
  split; [|split]; eexists; (split; [reflexivity|]); vec_unfold;
    cbn [Nat.eqb]; split; ring.
Qed.

(** ** Canvas transform *)

Lemma qdiv_nonzero (a b : Q) : ~ b == 0 -> qdiv a b = Some (a / b).
Proof. intros H. unfold qdiv. rewrite (Qeq_bool_false _ _ H). reflexivity. Qed.

Lemma qdiv_zero (a b : Q) : b == 0 -> qdiv a b = None.
Proof. intros H. unfold qdiv. rewrite (Qeq_bool_true _ _ H). reflexivity. Qed.

(** X15.  For a canvas of non-zero width and height [canvasMat] is an affine
    matrix (bottom-right entry 1) that scales x by
    (view width / canvas width) * ratio and sends y to
    (canvas height - (view height / canvas height) * y) * ratio: the y axis
    is flipped and the origin goes to (0, canvas height * ratio).  With a
    canvas dimension of zero a scale is a quotient by zero. *)
Theorem canvasMat_flips_y (canvasSize : Vec2.t) (viewRect : Rect.t) (pixelRatio : Q)
    (p : Vec2.t) :
  (~ Vec2.x canvasSize == 0 -> ~ Vec2.y canvasSize == 0 ->
   exists (m : Matrix.t) (v o : Vec2.t),
     canvasMat canvasSize viewRect pixelRatio = Some m /\
     Matrix.rowAtIndex m 2 = [Some 0; Some 0; Some 1] /\
     Matrix.mulVec2 m p = Some v /\
     Vec2.x v == Rect.width viewRect / Vec2.x canvasSize * pixelRatio * Vec2.x p /\
     Vec2.y v == (Vec2.y canvasSize - Rect.height viewRect / Vec2.y canvasSize * Vec2.y p)
                 * pixelRatio /\
     Matrix.mulVec2 m (Vec2.mk 0 0) = Some o /\
     o =v= Vec2.mk 0 (Vec2.y canvasSize * pixelRatio)) /\
  (Vec2.x canvasSize == 0 \/ Vec2.y canvasSize == 0 ->
   canvasMat canvasSize viewRect pixelRatio = None).
Proof.
  split.
  - intros Hx Hy. unfold canvasMat.
    rewrite (qdiv_nonzero _ _ Hx), (qdiv_nonzero _ _ Hy).
    do 3 eexists. split; [reflexivity|]. split; [reflexivity|].
    split; [apply mulVec2_affine_rows|].
    cbn [Vec2.x Vec2.y]. unfold Rect.width, Rect.height.
    split; [field; assumption|]. split; [field; assumption|].
    split; [apply mulVec2_affine_rows|].
    vec_unfold. split; ring.
  - intros [H|H]; unfold canvasMat.
    + rewrite (qdiv_zero _ _ H). reflexivity.
    + rewrite (qdiv_zero _ _ H). destruct (qdiv _ _); reflexivity.
Qed.

Lemma canvasMat_flips_y_witness :
  (exists (m : Matrix.t) (v o : Vec2.t),
     canvasMat (Vec2.mk 400 400) (Rect.create (-2) (-2) 4 4) 2 = Some m /\
     Matrix.rowAtIndex m 2 = [Some 0; Some 0; Some 1] /\
     Matrix.mulVec2 m (Vec2.mk 100 100) = Some v /\
     Vec2.x v == 4 / 400 * 2 * 100 /\
     Vec2.y v == (400 - 4 / 400 * 100) * 2 /\
     Matrix.mulVec2 m (Vec2.mk 0 0) = Some o /\
     o =v= Vec2.mk 0 (400 * 2)) /\
  canvasMat (Vec2.mk 0 400) (Rect.create (-2) (-2) 4 4) 2 = None.
Proof.
  split.
  - destruct (canvasMat_flips_y (Vec2.mk 400 400) (Rect.create (-2) (-2) 4 4) 2
                                (Vec2.mk 100 100)) as [Hok _].
    apply Hok; intros H; vm_compute in H; discriminate H.
  - destruct (canvasMat_flips_y (Vec2.mk 0 400) (Rect.create (-2) (-2) 4 4) 2
                                (Vec2.mk 100 100)) as [_ Hzero].
    apply Hzero. left. reflexivity.
Defined.

(** ** Numeric derivatives *)

(** X16.  The central difference of [explictNumericDerivative] is exact on
    a polynomial of degree two: for fn(u) = a u^2 + b u + c and any step
    other than zero it returns 2 a x + b; with step zero it returns no
    number. *)
Theorem explictNumericDerivative_quadratic (a b c x dx : Q) (fn : Q -> Q) :
  (forall u, fn u == a * u * u + b * u + c) -> ~ dx == 0 ->
  (exists r, explictNumericDerivative x fn dx = Some r /\ r == 2 * a * x + b) /\
  explictNumericDerivative x fn 0 = None.
Proof.
  intros Hfn Hdx. split; [|reflexivity].
  unfold explictNumericDerivative. rewrite (qdiv_nonzero _ _ Hdx).
  eexists. split; [reflexivity|]. rewrite !Hfn. field. exact Hdx.
Qed.

Lemma explictNumericDerivative_quadratic_witness :
  (exists r, explictNumericDerivative 3 (fun u => 1 * u * u + 0 * u + (-3 # 2)) (1 # 10)
             = Some r /\ r == 2 * 1 * 3 + 0) /\
  explictNumericDerivative 3 (fun u => 1 * u * u + 0 * u + (-3 # 2)) 0 = None.
Proof.
  apply (explictNumericDerivative_quadratic 1 0 (-3 # 2) 3 (1 # 10)).
  - intros u. reflexivity.
  - intros H. vm_compute in H. discriminate H.
Defined.

(** X17.  The forward difference of [derivative] on a polynomial of degree
    two, fn(u) = a u^2 + b u + c, with a step h other than zero, returns
    2 a x + b + a h: the slope at x plus an error of a h. *)
Theorem derivative_quadratic (a b c x h : Q) (fn : Q -> Q) :
  (forall u, fn u == a * u * u + b * u + c) -> ~ h == 0 ->
  (exists r, derivative fn h x = Some r /\ r == 2 * a * x + b + a * h) /\
  derivative fn 0 x = None.
Proof.
  intros Hfn Hh. split; [|reflexivity].
  unfold derivative. rewrite (qdiv_nonzero _ _ Hh).
  eexists. split; [reflexivity|]. rewrite !Hfn. field. exact Hh.
Qed.

Lemma derivative_quadratic_witness :
  (exists r, derivative (fun u => 1 * u * u + 0 * u + (-3 # 2)) (1 # 10) 3 = Some r /\
             r == 2 * 1 * 3 + 0 + 1 * (1 # 10)) /\
  derivative (fun u => 1 * u * u + 0 * u + (-3 # 2)) 0 3 = None.
Proof.
  apply (derivative_quadratic 1 0 (-3 # 2) 3 (1 # 10)).
  - intros u. reflexivity.
  - intros H. vm_compute in H. discriminate H.
Defined.

(** X18.  On fn(u, w) = a u + b w + c, with steps other than zero,
    [implicitNumericDerivative] returns - b / a at every point when a is not
    zero, and no number when a is zero: its first helper call varies the
    second argument of fn and its second call the first. *)
Theorem implicitNumericDerivative_linear (a b c dx dy : Q) (fn : Q -> Q -> Q) (p : Vec2.t) :
  (forall u w, fn u w == a * u + b * w + c) -> ~ dx == 0 -> ~ dy == 0 ->
  (~ a == 0 ->
   exists r, implicitNumericDerivative p fn dx dy = Some r /\ r == - b / a) /\
  (a == 0 -> implicitNumericDerivative p fn dx dy = None).
Proof.
  intros Hfn Hdx Hdy.
  unfold implicitNumericDerivative, explictNumericDerivative.
  rewrite (qdiv_nonzero _ _ Hdx), (qdiv_nonzero _ _ Hdy).
  assert (Ex : (fn (Vec2.x p) (Vec2.x p + dx / 2) - fn (Vec2.x p) (Vec2.x p - dx / 2)) / dx
               == b) by (rewrite !Hfn; field; exact Hdx).
  assert (Ey : (fn (Vec2.y p + dy / 2) (Vec2.y p) - fn (Vec2.y p - dy / 2) (Vec2.y p)) / dy
               == a) by (rewrite !Hfn; field; exact Hdy).
  split; intros Ha.
  - rewrite qdiv_nonzero by (rewrite Ey; exact Ha).
    eexists. split; [reflexivity|]. rewrite Ex, Ey. reflexivity.
  - apply qdiv_zero. rewrite Ey. exact Ha.
Qed.

Lemma implicitNumericDerivative_linear_witness :
  exists r,
    implicitNumericDerivative (Vec2.mk 1 2) (fun u w => 2 * u + 3 * w + 5) (1 # 10) (1 # 10)
    = Some r /\ r == - (3) / 2.
Proof.
  destruct (implicitNumericDerivative_linear 2 3 5 (1 # 10) (1 # 10)
              (fun u w => 2 * u + 3 * w + 5) (Vec2.mk 1 2)) as [Hok _].
  - intros u w. reflexivity.
  - intros H. vm_compute in H. discriminate H.
  - intros H. vm_compute in H. discriminate H.
  - apply Hok. intros H. vm_compute in H. discriminate H.
Defined.

(** X19.  For a direction whose x is not zero, [yValueForPointOnLine] gives
    the y for which (xValue, y) is on the line through [point] along [dir]:
    the vector from [point] to it is parallel to [dir], and at the point's
    own x it gives the point's y.  For a direction with x zero it gives no
    number. *)
Theorem yValueForPointOnLine_on_line (point dir : Vec2.t) (xValue : Q) :
  ~ Vec2.x dir == 0 ->
  (exists yValue,
     yValueForPointOnLine point dir xValue = Some yValue /\
     Vec2.crossMagnitude (Vec2.sub (Vec2.mk xValue yValue) point) dir == 0) /\
  (exists y0, yValueForPointOnLine point dir (Vec2.x point) = Some y0 /\
              y0 == Vec2.y point) /\
  yValueForPointOnLine point (Vec2.mk 0 (Vec2.y dir)) xValue = None.
Proof.
  intros Hd. unfold yValueForPointOnLine.
  rewrite !(qdiv_nonzero _ _ Hd).
  split; [|split; [|reflexivity]]; eexists; (split; [reflexivity|]).
  - unfold Vec2.crossMagnitude. vec_unfold. field. exact Hd.
  - field. exact Hd.
Qed.

Lemma yValueForPointOnLine_on_line_witness :
  (exists yValue,
     yValueForPointOnLine (Vec2.mk 1 1) (Vec2.mk 2 4) 3 = Some yValue /\
     Vec2.crossMagnitude (Vec2.sub (Vec2.mk 3 yValue) (Vec2.mk 1 1)) (Vec2.mk 2 4) == 0) /\
  (exists y0, yValueForPointOnLine (Vec2.mk 1 1) (Vec2.mk 2 4) 1 = Some y0 /\ y0 == 1) /\
  yValueForPointOnLine (Vec2.mk 1 1) (Vec2.mk 0 4) 3 = None.
Proof.
  apply (yValueForPointOnLine_on_line (Vec2.mk 1 1) (Vec2.mk 2 4) 3).
  intros H. vm_compute in H. discriminate H.
Defined.

(** ** Factorials and binomial coefficients *)

Lemma factorial_succ (n : nat) :
  factorial (S n) == inject_Z (Z.of_nat (S n)) * factorial n.
Proof.
  destruct n as [|n]; [reflexivity|].
  change (factorial (S (S n))) with (inject_Z (Z.of_nat (S (S n))) * factorial (S n)).
  reflexivity.
Qed.

Lemma inject_nat_pos (n : nat) : 0 < inject_Z (Z.of_nat (S n)).
Proof. change 0 with (inject_Z 0). rewrite <- Zlt_Qlt. lia. Qed.

Lemma factorial_pos (n : nat) : 0 < factorial n.
Proof.
  induction n as [|n IH]; [reflexivity|].
  rewrite factorial_succ. pose proof (inject_nat_pos n).
  apply Qmult_lt_0_compat; assumption.
Qed.

(** In exact arithmetic [factorial] is the factorial of every natural
    number, and is never zero. *)
Theorem factorial_is_fact (n : nat) :
  factorial n == inject_Z (Z.of_nat (fact n)) /\ 0 < factorial n.
Proof.
  split; [|apply factorial_pos].
  induction n as [|n IH]; [reflexivity|].
  rewrite factorial_succ, IH.
  change (fact (S n)) with (S n * fact n)%nat.
  rewrite Nat2Z.inj_mul, inject_Z_mult. reflexivity.
Qed.

Lemma binomial_parts (n k : nat) :
  (k < n)%nat ->
  factorial (S n) == (inject_Z (Z.of_nat (S k)) + inject_Z (Z.of_nat (n - k))) * factorial n /\
  factorial (S k) == inject_Z (Z.of_nat (S k)) * factorial k /\
  factorial (n - k) == inject_Z (Z.of_nat (n - k)) * factorial (n - S k) /\
  0 < inject_Z (Z.of_nat (S k)) /\ 0 < inject_Z (Z.of_nat (n - k)).
Proof.
  intros H.
  replace (n - k)%nat with (S (n - S k)) by lia.
  split; [|split; [apply factorial_succ | split; [apply factorial_succ|]]].
  - rewrite factorial_succ, <- inject_Z_plus.
    replace (Z.of_nat (S k) + Z.of_nat (S (n - S k)))%Z with (Z.of_nat (S n)) by lia.
    reflexivity.
  - split; apply inject_nat_pos.
Qed.

(** In exact arithmetic: for k <= n, [binomialCoefficient n k] times
    k! (n - k)! is n!, it is symmetric in k and n - k and equals 1 at k = 0
    and k = n, and it obeys Pascal's rule.  For k > n it is n! / k!. *)
Theorem binomialCoefficient_rules (n k : nat) :
  ((k <= n)%nat ->
     binomialCoefficient n k * (factorial k * factorial (n - k)) == factorial n /\
     binomialCoefficient n k == binomialCoefficient n (n - k)) /\
  binomialCoefficient n 0 == 1 /\
  binomialCoefficient n n == 1 /\
  ((k < n)%nat ->
     binomialCoefficient (S n) (S k)
     == binomialCoefficient n k + binomialCoefficient n (S k)) /\
  ((n < k)%nat -> binomialCoefficient n k == factorial n / factorial k).
Proof.
  pose proof (factorial_pos n) as Pn.
  pose proof (factorial_pos k) as Pk.
  pose proof (factorial_pos (n - k)) as Pnk.
  unfold binomialCoefficient.
  split; [|split; [|split; [|split]]].
  - intros H. split; [field; split; lra|].
    replace (n - (n - k))%nat with k by lia. field. split; lra.
  - rewrite Nat.sub_0_r. change (factorial 0) with 1. field. lra.
  - rewrite Nat.sub_diag. change (factorial 0) with 1. field. lra.
  - intros H.
    destruct (binomial_parts n k H) as (E1 & E2 & E3 & P1 & P2).
    pose proof (factorial_pos (n - S k)) as Pb.
    change (S n - S k)%nat with (n - k)%nat.
    rewrite E1, E2, E3. field. repeat split; lra.
  - intros H. replace (n - k)%nat with 0%nat by lia.
    change (factorial 0) with 1. field. lra.
Qed.

(** ** Bezier evaluation *)

Lemma eqp_refl (p : Point3D) : eqp p p.
Proof. repeat split; reflexivity. Qed.

Lemma eqp_trans (p q r : Point3D) : eqp p q -> eqp q r -> eqp p r.
Proof.
  intros (H1 & H2 & H3) (K1 & K2 & K3).
  repeat split; etransitivity; eassumption.
Qed.

(** The loop of [evaluateBezier] over the indices and points still to visit. *)
Lemma evaluateBezier_unfold (points : list Point3D) (t : Q) :
  evaluateBezier points t =
  fold_left
    (fun acc ip =>
       mkPoint3D
         (px acc + binomialCoefficient (length points - 1) (fst ip)
                   * pow (1 - t) (length points - 1 - fst ip) * pow t (fst ip)
                   * px (snd ip))
         (py acc + binomialCoefficient (length points - 1) (fst ip)
                   * pow (1 - t) (length points - 1 - fst ip) * pow t (fst ip)
                   * py (snd ip))
         (pz acc + binomialCoefficient (length points - 1) (fst ip)
                   * pow (1 - t) (length points - 1 - fst ip) * pow t (fst ip)
                   * pz (snd ip)))
    (combine (seq 0 (length points)) points)
    (mkPoint3D 0 0 0).
Proof. reflexivity. Qed.

Section WeightedSum.

Variable coef : nat -> Q.

Lemma weighted_fold_zero (l : list (nat * Point3D)) (acc : Point3D) :
  (forall ip, In ip l -> coef (fst ip) == 0) ->
  eqp (fold_left
         (fun acc ip =>
            mkPoint3D (px acc + coef (fst ip) * px (snd ip))
                      (py acc + coef (fst ip) * py (snd ip))
                      (pz acc + coef (fst ip) * pz (snd ip)))
         l acc)
      acc.
Proof.
  revert acc. induction l as [|ip l IH]; intros acc H; [apply eqp_refl|].
  cbn [fold_left]. eapply eqp_trans; [apply IH; intros; apply H; right; assumption|].
  assert (E : coef (fst ip) == 0) by (apply H; left; reflexivity).
  unfold eqp. cbn [px py pz]. rewrite E. repeat split; ring.
Qed.

End WeightedSum.

Lemma combine_snoc {A B : Type} (l : list A) (l' : list B) (a : A) (b : B) :
  length l = length l' ->
  combine (l ++ [a]) (l' ++ [b]) = combine l l' ++ [(a, b)].
Proof.
  revert l'. induction l as [|x l IH]; intros [|y l'] H; try discriminate H.
  - reflexivity.
  - cbn. f_equal. apply IH. injection H as H. exact H.
Qed.

Lemma pow_zero_base (e : nat) : (1 <= e)%nat -> pow 0 e == 0.
Proof. intros H. unfold pow. apply Qpower_0. lia. Qed.

Lemma pow_one_base (q : Q) (e : nat) : q == 1 -> pow q e == 1.
Proof. intros H. unfold pow. rewrite H. apply Qpower_1. Qed.

Lemma pow_nil_base (q : Q) (e : nat) : q == 0 -> (1 <= e)%nat -> pow q e == 0.
Proof. intros H He. unfold pow. rewrite H. apply Qpower_0. lia. Qed.

Lemma binomial_first (n : nat) : binomialCoefficient n 0 == 1.
Proof.
  pose proof (factorial_pos n). unfold binomialCoefficient.
  rewrite Nat.sub_0_r. change (factorial 0) with 1. field. lra.
Qed.

Lemma binomial_last (n : nat) : binomialCoefficient n n == 1.
Proof.
  pose proof (factorial_pos n). unfold binomialCoefficient.
  rewrite Nat.sub_diag. change (factorial 0) with 1. field. lra.
Qed.

(** In exact arithmetic a Bezier curve starts at its first control point
    and ends at its last, whatever the number of points; with no point at
    all [evaluateBezier] gives (0, 0, 0) for every t. *)
Theorem evaluateBezier_endpoints (p : Point3D) (rest : list Point3D) (t : Q) :
  eqp (evaluateBezier (p :: rest) 0) p /\
  eqp (evaluateBezier (p :: rest) 1) (last (p :: rest) p) /\
  evaluateBezier [] t = mkPoint3D 0 0 0.
Proof.
  split; [|split; [|reflexivity]].
  - rewrite evaluateBezier_unfold. cbn [length seq combine fold_left fst snd].
    eapply eqp_trans.
    + apply (weighted_fold_zero
               (fun i => binomialCoefficient (S (length rest) - 1) i
                         * pow (1 - 0) (S (length rest) - 1 - i) * pow 0 i)).
      intros [i q] Hin. apply in_combine_l in Hin. apply in_seq in Hin.
      cbn [fst]. rewrite (pow_zero_base i) by lia. ring.
    + rewrite Nat.sub_0_r. unfold eqp. cbn [px py pz].
      rewrite (binomial_first (S (length rest) - 1)).
      rewrite (pow_one_base (1 - 0)) by ring.
      change (pow 0 0) with 1. repeat split; ring.
  - assert (Hne : p :: rest <> []) by discriminate.
    destruct (exists_last Hne) as (init & q & E).
    rewrite E, last_last, evaluateBezier_unfold.
    rewrite length_app. cbn [length]. rewrite Nat.add_1_r.
    rewrite seq_S, combine_snoc by (rewrite length_seq; reflexivity).
    rewrite fold_left_app. cbn [fold_left fst snd Nat.add].
    match goal with
    | |- eqp (mkPoint3D (px ?acc + _) _ _) _ =>
        assert (Hacc : eqp acc (mkPoint3D 0 0 0))
    end.
    { apply (weighted_fold_zero
               (fun i => binomialCoefficient (S (length init) - 1) i
                         * pow (1 - 1) (S (length init) - 1 - i) * pow 1 i)).
      intros [i r] Hin. apply in_combine_l in Hin. apply in_seq in Hin.
      cbn [fst]. rewrite (pow_nil_base (1 - 1)) by (try ring; lia). ring. }
    destruct Hacc as (Hx & Hy & Hz). cbn [px py pz] in Hx, Hy, Hz.
    unfold eqp. cbn [px py pz]. rewrite Hx, Hy, Hz.
    replace (S (length init) - 1)%nat with (length init) by lia.
    rewrite Nat.sub_diag, binomial_last.
    rewrite (pow_one_base 1) by reflexivity.
    change (pow (1 - 1) 0) with 1. repeat split; ring.
Qed.

Ltac bezier_unfold :=
  rewrite evaluateBezier_unfold;
  cbn [length seq combine fold_left fst snd];
  unfold eqp, pow; cbn [px py pz];
  cbn [Nat.sub Z.of_nat Pos.of_succ_nat Pos.succ].

Lemma binomial_small :
  binomialCoefficient 0 0 == 1 /\
  binomialCoefficient 1 0 == 1 /\ binomialCoefficient 1 1 == 1 /\
  binomialCoefficient 3 0 == 1 /\ binomialCoefficient 3 1 == 3 /\
  binomialCoefficient 3 2 == 3 /\ binomialCoefficient 3 3 == 1.
Proof. repeat split; vm_compute; reflexivity. Qed.

(** X23.  With one control point [evaluateBezier] is constant, and with two
    it is the straight segment between them: (1 - t) p + t q for every t,
    inside [0,1] or not. *)
Theorem evaluateBezier_degree_0_1 (p q : Point3D) (t : Q) :
  eqp (evaluateBezier [p] t) p /\
  eqp (evaluateBezier [p; q] t)
      (mkPoint3D ((1 - t) * px p + t * px q)
                 ((1 - t) * py p + t * py q)
                 ((1 - t) * pz p + t * pz q)).
Proof.
  destruct binomial_small as (B00 & B10 & B11 & _).
  split; bezier_unfold.
  - rewrite B00. repeat split; ring.
  - rewrite B10, B11. repeat split; ring.
Qed.

(** X24.  The closed form of [computePointOnCurve] is the cubic case of the
    general evaluator: for every t its x and y are the x and y that
    [evaluateBezier] gives for the same four control points (taken with z
    = 0); it starts at p0 and ends at p3. *)
Theorem computePointOnCurve_is_cubic_bezier (curve : Bezier2D.BezierCurve) (t : Q) :
  let lift := fun p => mkPoint3D (Bezier2D.x p) (Bezier2D.y p) 0 in
  let general :=
    evaluateBezier [lift (Bezier2D.p0 curve); lift (Bezier2D.p1 curve);
                    lift (Bezier2D.p2 curve); lift (Bezier2D.p3 curve)] t in
  Bezier2D.x (Bezier2D.computePointOnCurve curve t) == px general /\
  Bezier2D.y (Bezier2D.computePointOnCurve curve t) == py general /\
  pz general == 0 /\
  Bezier2D.x (Bezier2D.computePointOnCurve curve 0) == Bezier2D.x (Bezier2D.p0 curve) /\
  Bezier2D.y (Bezier2D.computePointOnCurve curve 0) == Bezier2D.y (Bezier2D.p0 curve) /\
  Bezier2D.x (Bezier2D.computePointOnCurve curve 1) == Bezier2D.x (Bezier2D.p3 curve) /\
  Bezier2D.y (Bezier2D.computePointOnCurve curve 1) == Bezier2D.y (Bezier2D.p3 curve).
Proof.
  destruct binomial_small as (_ & _ & _ & B30 & B31 & B32 & B33).
  cbv zeta. unfold Bezier2D.computePointOnCurve. cbn [Bezier2D.x Bezier2D.y].
  bezier_unfold. rewrite B30, B31, B32, B33.
  repeat split; ring.
Qed.

(** ** Arc length and its table *)

Section TableAndLength.

Variable sqrt : Q -> Q.
Variables (points : list Point3D) (steps : nat).

(** The loops of [arcLength] and [buildArcLengthTable] walk in step: same
    running length, same previous sample; the table grows by one entry per
    iteration and ends with the running length. *)
Lemma loops_in_step (l : list nat) (st : TableState) (w : Q * Point3D) :
  length_ st = fst w -> prevPoint st = snd w -> last (table_ st) 0 = length_ st ->
  hd 0 (table_ st) = 0 -> table_ st <> [] ->
  let st' := fold_left (tableStep sqrt points steps) l st in
  let w' := fold_left (lengthStep sqrt points steps) l w in
  length_ st' = fst w' /\ last (table_ st') 0 = length_ st' /\
  hd 0 (table_ st') = 0 /\
  length (table_ st') = (length (table_ st) + length l)%nat.
Proof.
  revert st w. induction l as [|i l IH]; intros st w H1 H2 H3 H4 H5.
  - cbn. repeat split; try assumption. lia.
  - cbn [fold_left].
    destruct (IH (tableStep sqrt points steps st i) (lengthStep sqrt points steps w i))
      as (K1 & K2 & K3 & K4).
    + unfold tableStep, lengthStep. cbn [length_ fst]. rewrite H1, H2. reflexivity.
    + reflexivity.
    + unfold tableStep. cbn [table_ length_]. apply last_last.
    + unfold tableStep. cbn [table_]. destruct (table_ st); [contradiction | exact H4].
    + unfold tableStep. cbn [table_]. intros E. apply app_eq_nil in E.
      destruct E as [_ E]. discriminate E.
    + cbv zeta. repeat split; try assumption.
      rewrite K4. unfold tableStep. cbn [table_ length].
      rewrite length_app. cbn [length]. lia.
Qed.

End TableAndLength.

(** X25.  The total that [arcLength] returns is the last entry of the table
    that [buildArcLengthTable] builds from the same points and number of
    steps; that table has steps + 1 entries and starts with 0. *)
Theorem arcLength_is_last_table_entry
    (sqrt : Q -> Q) (points : list Point3D) (steps : nat) :
  arcLength sqrt points steps = last (buildArcLengthTable sqrt points steps) 0 /\
  length (buildArcLengthTable sqrt points steps) = S steps /\
  nth_error (buildArcLengthTable sqrt points steps) 0 = Some 0.
Proof.
  destruct (loops_in_step sqrt points steps (seq 1 steps)
              (mkTableState 0 (evaluateBezier points 0) [0])
              (0, evaluateBezier points 0))
    as (K1 & K2 & K3 & K4); try reflexivity; [discriminate|].
  unfold arcLength, buildArcLengthTable.
  split; [rewrite K2, K1; reflexivity|].
  split; [rewrite K4, length_seq; reflexivity|].
  destruct (table_ _) as [|a l]; [discriminate K4|].
  cbn in K3. rewrite K3. reflexivity.
Qed.

(** ** Binary searches *)

Lemma midpoint_between (low high : Z) :
  (low < high)%Z -> (low <= (low + high) / 2 < high)%Z.
Proof.
  intros H. split; [apply Z.div_le_lower_bound | apply Z.div_lt_upper_bound]; lia.
Qed.

Lemma searchLoop_result (table : list Q) (s : Q) (low high idx : Z) :
  ((low < high)%Z -> (low <= searchLoop table s low high idx < high)%Z) /\
  ((high <= low)%Z -> searchLoop table s low high idx = idx).
Proof.
  funelim (searchLoop table s low high idx).
  - split; [lia | reflexivity].
  - pose proof (midpoint_between low high l) as Hm.
    split; [intros _ | lia].
    destruct H as [Hlt Hge].
    destruct (Z_lt_le_dec ((low + high) / 2 + 1) high) as [Hc|Hc].
    + specialize (Hlt Hc). lia.
    + rewrite (Hge Hc). lia.
  - pose proof (midpoint_between low high l) as Hm.
    split; [intros _ | lia].
    destruct H as [Hlt Hge].
    destruct (Z_lt_le_dec low ((low + high) / 2)) as [Hc|Hc].
    + specialize (Hlt Hc). lia.
    + rewrite (Hge Hc). lia.
Qed.

(** X26.  The loop of [findTForArcLength] ends with [index] at the last
    midpoint it tried, which is at least [low] and strictly below [high];
    started on a table of two entries or more, it therefore ends with an
    index between 0 and lastIndex - 1, and the bracket that ends at the last
    entry of the table is never the one used. *)
Theorem searchLoop_index_below_high (table : list Q) (s : Q) :
  (2 <= length table)%nat ->
  let lastIndex := (Z.of_nat (length table) - 1)%Z in
  (0 <= searchLoop table s 0 lastIndex 0 <= lastIndex - 1)%Z.
Proof.
  intros H lastIndex.
  destruct (searchLoop_result table s 0 lastIndex 0) as [Hlt _].
  unfold lastIndex in *. lia.
Qed.

Lemma searchLoop_index_below_high_witness :
  let table : list Q := [0; 1; 2; 10] in
  (0 <= searchLoop table 5%Q 0 (Z.of_nat (length table) - 1) 0
     <= Z.of_nat (length table) - 1 - 1)%Z.
Proof.
  apply (searchLoop_index_below_high [0; 1; 2; 10] 5). cbn. lia.
Defined.

Lemma get_nth_error {A : Type} (l : list A) (i : Z) (a : A) :
  get l i = Some a -> (0 <= i)%Z /\ nth_error l (Z.to_nat i) = Some a.
Proof.
  unfold get. destruct (Z.ltb_spec i 0) as [Hn|Hp]; [discriminate|].
  intros H. split; [lia | exact H].
Qed.

Lemma nondecreasing_steps (l : list Q) (i d : nat) (a b : Q) :
  nondecreasing l ->
  nth_error l i = Some a -> nth_error l (i + d) = Some b -> a <= b.
Proof.
  intros Hl. revert b. induction d as [|d IH]; intros b Ha Hb.
  - rewrite Nat.add_0_r in Hb. rewrite Ha in Hb. injection Hb as <-. lra.
  - destruct (nth_error l (i + d)) as [c|] eqn:Hc.
    + specialize (IH c Ha eq_refl).
      assert (c <= b) by (apply (Hl (i + d)%nat c b Hc); rewrite <- Nat.add_succ_r; exact Hb).
      lra.
    + apply nth_error_None in Hc.
      assert (Hs : nth_error l (i + S d) <> None) by congruence.
      apply nth_error_Some in Hs. lia.
Qed.

Lemma nondecreasing_get (l : list Q) (i j : Z) (a b : Q) :
  nondecreasing l -> (i <= j)%Z -> get l i = Some a -> get l j = Some b -> a <= b.
Proof.
  intros Hl Hij Ha Hb.
  apply get_nth_error in Ha. apply get_nth_error in Hb.
  destruct Ha as [Hi Ha], Hb as [Hj Hb].
  apply (nondecreasing_steps l (Z.to_nat i) (Z.to_nat j - Z.to_nat i) a b Hl Ha).
  replace (Z.to_nat i + (Z.to_nat j - Z.to_nat i))%nat with (Z.to_nat j) by lia.
  exact Hb.
Qed.

Lemma Qlt_bool_iff (a b : Q) : Qlt_bool a b = true <-> a < b.
Proof.
  unfold Qlt_bool. rewrite negb_true_iff. apply Qle_bool_false.
Qed.

Lemma probe_cases (arr : list Q) (mid : Z) (value : Q) :
  (0 <= mid < Z.of_nat (length arr))%Z ->
  exists v, get arr mid = Some v /\
    match probe arr mid value with
    | Lt => v < value
    | Gt => value < v
    | Eq => v == value
    end.
Proof.
  intros H. destruct (get_in_range arr mid H) as [v Hv].
  exists v. split; [exact Hv|]. unfold probe. rewrite Hv.
  destruct (Qlt_bool v value) eqn:E1; [apply Qlt_bool_iff, E1|].
  destruct (Qlt_bool value v) eqn:E2; [apply Qlt_bool_iff, E2|].
  unfold Qlt_bool in E1, E2. apply negb_false_iff, Qle_bool_iff in E1, E2.
  apply Qle_antisym; assumption.
Qed.

(** What the loop of [binarySearch] returns on a sorted array, when every
    entry before [low] is below the value and every entry after [high] is
    above it: the index of an entry equal to the value, or the index after
    which the entries are above the value and up to which they are below. *)
Lemma binarySearchLoop_spec (arr : list Q) (value : Q) (low high : Z) :
  nondecreasing arr ->
  (0 <= low)%Z -> (high < Z.of_nat (length arr))%Z -> (low <= high + 1)%Z ->
  (forall i v, (0 <= i < low)%Z -> get arr i = Some v -> v < value) ->
  (forall i v, (high < i)%Z -> get arr i = Some v -> value < v) ->
  let r := binarySearchLoop arr value low high in
  (low - 1 <= r <= high)%Z /\
  ((exists v, get arr r = Some v /\ v == value) \/
   ((forall i v, (0 <= i <= r)%Z -> get arr i = Some v -> v < value) /\
    (forall i v, (r < i)%Z -> get arr i = Some v -> value < v))).
Proof.
  intros Hs. funelim (binarySearchLoop arr value low high);
    intros Hlow Hhigh Hlh Hbelow Habove; cbv zeta.
  - split; [lia|]. right. split.
    + intros i v Hi. apply Hbelow. lia.
    + intros i v Hi. apply Habove. lia.
  - assert (Hm : (low <= (low + high) / 2 <= high)%Z)
      by (split; [apply Z.div_le_lower_bound | apply Z.div_le_upper_bound]; lia).
    destruct (probe_cases arr ((low + high) / 2) value) as (v & Hv & Hp); [lia|].
    rewrite Heq in Hp.
    split; [lia|]. left. exists v. split; assumption.
  - assert (Hm : (low <= (low + high) / 2 <= high)%Z)
      by (split; [apply Z.div_le_lower_bound | apply Z.div_le_upper_bound]; lia).
    destruct (probe_cases arr ((low + high) / 2) value) as (v & Hv & Hp); [lia|].
    rewrite Heq in Hp.
    destruct H as [Hr Hd]; try assumption; try lia.
    + intros i w Hi Hw.
      assert (w <= v) by (apply (nondecreasing_get arr i ((low + high) / 2)); try assumption; lia).
      lra.
    + split; [lia | exact Hd].
  - assert (Hm : (low <= (low + high) / 2 <= high)%Z)
      by (split; [apply Z.div_le_lower_bound | apply Z.div_le_upper_bound]; lia).
    destruct (probe_cases arr ((low + high) / 2) value) as (v & Hv & Hp); [lia|].
    rewrite Heq in Hp.
    destruct H as [Hr Hd]; try assumption; try lia.
    + intros i w Hi Hw.
      assert (v <= w) by (apply (nondecreasing_get arr ((low + high) / 2) i); try assumption; lia).
      lra.
    + split; [lia | exact Hd].
Qed.

(** X27.  On a sorted array [binarySearch] returns an index r between -1
    and the last index such that every entry up to r is at most the value
    and every entry after r is at least the value; when the value occurs in
    the array, the entry at r is equal to it. *)
Theorem binarySearch_brackets (arr : list Q) (value : Q) :
  nondecreasing arr ->
  let r := Bezier2D.binarySearch arr value in
  (-1 <= r < Z.of_nat (length arr))%Z /\
  (forall i v, (0 <= i <= r)%Z -> get arr i = Some v -> v <= value) /\
  (forall i v, (r < i)%Z -> get arr i = Some v -> value <= v) /\
  (forall i v, get arr i = Some v -> v == value ->
     exists w, get arr r = Some w /\ w == value).
Proof.
  intros Hs r.
  destruct (binarySearchLoop_spec arr value 0 (Z.of_nat (length arr) - 1) Hs)
    as [Hr Hd]; try lia.
  { intros i v Hi Hv. apply get_Some_range in Hv. lia. }
  fold (Bezier2D.binarySearch arr value) in Hr, Hd. fold r in Hr, Hd.
  split; [lia|].
  destruct Hd as [(w & Hw & Ew) | [Hb Ha]].
  - split; [|split].
    + intros i v Hi Hv.
      assert (v <= w) by (apply (nondecreasing_get arr i r); try assumption; lia). lra.
    + intros i v Hi Hv.
      assert (w <= v) by (apply (nondecreasing_get arr r i); try assumption; lia). lra.
    + intros _ _ _ _. exists w. split; assumption.
  - split; [|split].
    + intros i v Hi Hv. apply Qlt_le_weak, (Hb i v Hi Hv).
    + intros i v Hi Hv. apply Qlt_le_weak, (Ha i v Hi Hv).
    + intros i v Hv Ev. exfalso.
      pose proof (get_Some_range _ _ _ Hv) as Hrange.
      destruct (Z_le_gt_dec i r) as [Hi|Hi].
      * specialize (Hb i v (conj (proj1 Hrange) Hi) Hv). lra.
      * assert (Hlt : (r < i)%Z) by lia. specialize (Ha i v Hlt Hv). lra.
Qed.

Lemma nondecreasing_sample : nondecreasing [0; 1; 2; 10].
Proof.
  intros i a b Ha Hb. apply Qlt_le_weak. exact (increasing_example i a b Ha Hb).
Qed.

Lemma binarySearch_brackets_witness :
  let arr : list Q := [0; 1; 2; 10] in
  let r := Bezier2D.binarySearch arr 5 in
  (-1 <= r < Z.of_nat (length arr))%Z /\
  (forall i v, (0 <= i <= r)%Z -> get arr i = Some v -> v <= 5) /\
  (forall i v, (r < i)%Z -> get arr i = Some v -> 5 <= v) /\
  (forall i v, get arr i = Some v -> v == 5 ->
     exists w, get arr r = Some w /\ w == 5).
Proof.
  exact (binarySearch_brackets [0; 1; 2; 10] 5 nondecreasing_sample).
Defined.

(** X28.  [lerp] and [inverseLerp] undo each other when the two ends
    differ: the position of lerp(a, b, t) between a and b is t, and the
    point at the position of a value is that value.  With equal ends
    [inverseLerp] gives no number. *)
Theorem lerp_inverseLerp_round_trip (a b t value : Q) :
  ~ a == b ->
  (exists u, Bezier2D.inverseLerp (Bezier2D.lerp a b t) a b = Some u /\ u == t) /\
  (exists u, Bezier2D.inverseLerp value a b = Some u /\
             Bezier2D.lerp a b u == value) /\
  Bezier2D.inverseLerp value a a = None.
Proof.
  intros Hab. assert (Hd : ~ b - a == 0) by (intros E; apply Hab; lra).
  unfold Bezier2D.inverseLerp. rewrite !(qdiv_nonzero _ _ Hd).
  split; [|split].
  - eexists. split; [reflexivity|]. unfold Bezier2D.lerp. field. exact Hd.
  - eexists. split; [reflexivity|]. unfold Bezier2D.lerp. field. exact Hd.
  - apply qdiv_zero. ring.
Qed.

Lemma lerp_inverseLerp_round_trip_witness :
  (exists u, Bezier2D.inverseLerp (Bezier2D.lerp 2 6 (1 # 4)) 2 6 = Some u /\ u == 1 # 4) /\
  (exists u, Bezier2D.inverseLerp 3 2 6 = Some u /\ Bezier2D.lerp 2 6 u == 3) /\
  Bezier2D.inverseLerp 3 2 2 = None.
Proof.
  apply (lerp_inverseLerp_round_trip 2 6 (1 # 4) 3).
  intros H. vm_compute in H. discriminate H.
Defined.

(** ** Segment chain at its knots *)

Lemma lerp_amount_zero (a b : Vec2.t) (amount : Q) :
  amount == 0 -> Vec2.lerp a b amount =v= a.
Proof. intros H. vec_unfold. rewrite H. split; ring. Qed.

Lemma knot_parameter (k count : Z) :
  (1 <= count)%Z ->
  inject_Z k / inject_Z count / (1 / inject_Z count) == inject_Z k.
Proof.
  intros Hc. pose proof (count_ge_1 count Hc). field. lra.
Qed.

Lemma knot_inside (k count : Z) :
  (0 < k < count)%Z ->
  0 < inject_Z k / inject_Z count /\ inject_Z k / inject_Z count < 1.
Proof.
  intros [H0 H1].
  assert (Hk : 0 < inject_Z k) by (change 0 with (inject_Z 0); rewrite <- Zlt_Qlt; lia).
  assert (Hkc : inject_Z k < inject_Z count) by (rewrite <- Zlt_Qlt; lia).
  assert (Hc : 0 < inject_Z count) by lra.
  split.
  - apply Qlt_shift_div_l; [exact Hc | lra].
  - apply Qlt_shift_div_r; [exact Hc | lra].
Qed.

(** In exact arithmetic the segment chain passes through every control
    point: for N >= 2 points its value at t = k / (N - 1) is the point of
    index k. *)
Theorem LineSegmentsInterpolator_through_knots (pts : list Vec2.t) (k : Z) (p : Vec2.t) :
  (2 <= length pts)%nat -> get pts k = Some p ->
  exists v,
    LineSegmentsInterpolator pts (inject_Z k / inject_Z (Z.of_nat (length pts) - 1))
    = Some v /\ v =v= p.
Proof.
  intros Hlen Hk.
  pose proof (get_Some_range _ _ _ Hk) as Hr.
  set (count := (Z.of_nat (length pts) - 1)%Z).
  assert (Hc : (1 <= count)%Z) by (unfold count; lia).
  pose proof (count_ge_1 count Hc) as Hc1.
  assert (Hne : pts <> []) by (destruct pts; [cbn in Hlen; lia | discriminate]).
  destruct (Z.eq_dec k 0) as [E0|N0]; [|destruct (Z.eq_dec k count) as [E1|N1]].
  - subst k. rewrite (get_head pts Vec2.zero Hne) in Hk. injection Hk as <-.
    apply segment_chain_low; [exact Hlen|].
    unfold Qdiv. rewrite Qmult_0_l. lra.
  - subst k. unfold count in Hk.
    rewrite (get_last pts Vec2.zero Hne) in Hk. injection Hk as <-.
    apply segment_chain_high; [exact Hlen|].
    assert (E : inject_Z count / inject_Z count == 1) by (field; lra). lra.
  - assert (Hin : (0 < k < count)%Z) by (unfold count; lia).
    destruct (knot_inside k count Hin) as [Ht0 Ht1].
    unfold LineSegmentsInterpolator. fold count.
    destruct (Z.ltb_spec count 1) as [Hn|_]; [lia|].
    rewrite remap_inside by assumption. cbn [index parameter].
    assert (Ei : Qfloor (inject_Z k / inject_Z count / (1 / inject_Z count)) = k)
      by (rewrite (Qfloor_comp _ _ (knot_parameter k count Hc)); apply Qfloor_Z).
    rewrite Ei, Hk.
    destruct (get_in_range pts (k + 1)) as [b Hb]; [unfold count in Hin; lia|].
    rewrite Hb. eexists. split; [reflexivity|].
    apply lerp_amount_zero.
    rewrite (subT_fraction _ _ Ht0 Ht1 Hc), Ei, (knot_parameter k count Hc). ring.
Qed.

(** ** Reparametrization of a plane cubic *)

Section Reparametrization.

Variable sqrt : Q -> Q.
Variables (curve : Bezier2D.BezierCurve) (numSegments : nat).

(** The loops of [curveLength] and of [reparametrizeCurveByArcLength] walk
    in step, and [st] ends with the running length. *)
Lemma walks_in_step (dt : Q) (l : list nat) (w : Bezier2D.Walk)
    (u : Q * Q * Bezier2D.Point) :
  Bezier2D.len w = fst (fst u) -> Bezier2D.param w = snd (fst u) ->
  Bezier2D.prev w = snd u ->
  last (Bezier2D.st_ w) 0 = Bezier2D.len w -> hd 0 (Bezier2D.st_ w) = 0 ->
  Bezier2D.st_ w <> [] ->
  let w' := fold_left (Bezier2D.walkStep sqrt curve dt) l w in
  let u' := fold_left (Bezier2D.lengthWalkStep sqrt curve dt) l u in
  Bezier2D.len w' = fst (fst u') /\
  last (Bezier2D.st_ w') 0 = Bezier2D.len w' /\
  hd 0 (Bezier2D.st_ w') = 0 /\
  length (Bezier2D.st_ w') = (length (Bezier2D.st_ w) + length l)%nat.
Proof.
  revert w u. induction l as [|i l IH]; intros w u H1 H2 H3 H4 H5 H6.
  - cbn. repeat split; try assumption. lia.
  - cbn [fold_left]. destruct u as [[length0 t0] q0]. cbn [fst snd] in H1, H2, H3.
    destruct (IH (Bezier2D.walkStep sqrt curve dt w i)
                 (Bezier2D.lengthWalkStep sqrt curve dt (length0, t0, q0) i))
      as (K1 & K2 & K3 & K4).
    + unfold Bezier2D.walkStep, Bezier2D.lengthWalkStep.
      cbn [Bezier2D.len fst]. rewrite H1, H2, H3. reflexivity.
    + unfold Bezier2D.walkStep, Bezier2D.lengthWalkStep.
      cbn [Bezier2D.param fst snd]. rewrite H2. reflexivity.
    + unfold Bezier2D.walkStep, Bezier2D.lengthWalkStep.
      cbn [Bezier2D.prev snd]. rewrite H2. reflexivity.
    + unfold Bezier2D.walkStep. cbn [Bezier2D.st_ Bezier2D.len]. apply last_last.
    + unfold Bezier2D.walkStep. cbn [Bezier2D.st_].
      destruct (Bezier2D.st_ w); [contradiction | exact H5].
    + unfold Bezier2D.walkStep. cbn [Bezier2D.st_]. intros E.
      apply app_eq_nil in E. destruct E as [_ E]. discriminate E.
    + cbv zeta. repeat split; try assumption.
      rewrite K4. unfold Bezier2D.walkStep. cbn [Bezier2D.st_ length].
      rewrite length_app. cbn [length]. lia.
Qed.

Lemma cumulativeLengths_shape :
  Bezier2D.curveLength sqrt curve numSegments
    = last (Bezier2D.cumulativeLengths sqrt curve numSegments) 0 /\
  length (Bezier2D.cumulativeLengths sqrt curve numSegments) = S numSegments /\
  nth_error (Bezier2D.cumulativeLengths sqrt curve numSegments) 0 = Some 0.
Proof.
  destruct (walks_in_step (1 / inject_Z (Z.of_nat numSegments)) (seq 1 numSegments)
              (Bezier2D.mkWalk 0 0 (Bezier2D.p0 curve) [0])
              (0, 0, Bezier2D.p0 curve))
    as (K1 & K2 & K3 & K4); try reflexivity; [discriminate|].
  unfold Bezier2D.curveLength, Bezier2D.cumulativeLengths.
  split; [rewrite K2, K1; reflexivity|].
  split; [rewrite K4, length_seq; reflexivity|].
  destruct (Bezier2D.st_ _) as [|a l]; [discriminate K4|].
  cbn in K3. rewrite K3. reflexivity.
Qed.

(** The entries of [ts] are the entries of [st] divided by the total. *)
Lemma normalizedLengths_entry (i : Z) (v : Q) :
  ~ Bezier2D.curveLength sqrt curve numSegments == 0 ->
  get (Bezier2D.cumulativeLengths sqrt curve numSegments) i = Some v ->
  exists t,
    get (Bezier2D.normalizedLengths sqrt curve numSegments) i = Some (Some t) /\
    t == v / Bezier2D.curveLength sqrt curve numSegments.
Proof.
  intros HL Hv.
  destruct cumulativeLengths_shape as (_ & Hlen & H0).
  pose proof (get_Some_range _ _ _ Hv) as Hr. rewrite Hlen in Hr.
  apply get_nth_error in Hv. destruct Hv as [_ Hv].
  unfold get. destruct (Z.ltb_spec i 0) as [Hn|_]; [lia|].
  unfold Bezier2D.normalizedLengths.
  destruct (Z.to_nat i) as [|j] eqn:Ej.
  - rewrite H0 in Hv. injection Hv as <-.
    exists 0. split; [reflexivity|]. field. exact HL.
  - cbn [nth_error]. rewrite nth_error_map, nth_error_seq.
    destruct (Nat.ltb_spec j numSegments) as [_|Hj]; [|lia].
    cbn [option_map Nat.add]. rewrite Hv.
    unfold Bezier2D.inverseLerp. rewrite qdiv_nonzero by (intros E; apply HL; lra).
    eexists. split; [reflexivity|]. field. exact HL.
Qed.

End Reparametrization.

Lemma increasing_nondecreasing (l : list Q) : increasing l -> nondecreasing l.
Proof. intros H i a b Ha Hb. apply Qlt_le_weak, (H i a b Ha Hb). Qed.

Lemma increasing_next (l : list Q) (i : Z) (a b : Q) :
  increasing l -> get l i = Some a -> get l (i + 1) = Some b -> a < b.
Proof.
  intros Hl Ha Hb. apply get_nth_error in Ha. apply get_nth_error in Hb.
  destruct Ha as [Hi Ha], Hb as [_ Hb].
  replace (Z.to_nat (i + 1)) with (S (Z.to_nat i)) in Hb by lia.
  exact (Hl _ _ _ Ha Hb).
Qed.

(** Where the binary search lands for a value from the first entry up to,
    but not including, the last one of a strictly increasing array. *)
Lemma binarySearch_inside (st : list Q) (s : Q) :
  increasing st -> (2 <= length st)%nat ->
  nth_error st 0 = Some 0 -> 0 <= s -> s < last st 0 ->
  exists a b : Q,
    get st (Bezier2D.binarySearch st s) = Some a /\
    get st (Bezier2D.binarySearch st s + 1) = Some b /\
    a <= s /\ s < b.
Proof.
  intros Hinc Hlen H0 Hs0 HsL.
  assert (Hne : st <> []) by (destruct st; [cbn in Hlen; lia | discriminate]).
  pose proof (get_last st 0 Hne) as Hlast.
  assert (Hfirst : get st 0 = Some 0) by exact H0.
  destruct (binarySearchLoop_spec st s 0 (Z.of_nat (length st) - 1)
              (increasing_nondecreasing st Hinc))
    as [Hr Hd]; try lia.
  { intros i v Hi Hv. apply get_Some_range in Hv. lia. }
  fold (Bezier2D.binarySearch st s) in Hr, Hd.
  set (r := Bezier2D.binarySearch st s) in *.
  destruct Hd as [(w & Hw & Ew) | [Hb Ha]].
  - assert (Hrn : (r <> Z.of_nat (length st) - 1)%Z).
    { intros E. rewrite E, Hlast in Hw. injection Hw as Hw.
      rewrite <- Hw in Ew. lra. }
    pose proof (get_Some_range _ _ _ Hw) as Hrange.
    destruct (get_in_range st (r + 1)) as [b Hbv]; [lia|].
    exists w, b. split; [exact Hw|]. split; [exact Hbv|].
    pose proof (increasing_next st r w b Hinc Hw Hbv). split; lra.
  - assert (Hr0 : (0 <= r)%Z).
    { destruct (Z_lt_le_dec r 0) as [Hn|Hp]; [|exact Hp].
      specialize (Ha 0%Z 0 Hn Hfirst). lra. }
    assert (Hrn : (r <> Z.of_nat (length st) - 1)%Z).
    { intros E. assert (Hle : (0 <= Z.of_nat (length st) - 1 <= r)%Z) by lia.
      specialize (Hb _ _ Hle Hlast). lra. }
    destruct (get_in_range st r) as [a Hav]; [lia|].
    destruct (get_in_range st (r + 1)) as [b Hbv]; [lia|].
    exists a, b. split; [exact Hav|]. split; [exact Hbv|].
    assert (Hra : (0 <= r <= r)%Z) by lia.
    assert (Hrb : (r < r + 1)%Z) by lia.
    specialize (Hb r a Hra Hav). specialize (Ha (r + 1)%Z b Hrb Hbv).
    split; lra.
Qed.

(** X29.  When the cumulative lengths are strictly increasing, the function
    that [reparametrizeCurveByArcLength] returns maps an arc length s with
    0 <= s < total to s / total, the fraction of the total length: its table
    [ts] holds normalized lengths, so the interpolation gives back s itself,
    divided by the total. *)
Theorem reparametrizeCurveByArcLength_is_fraction
    (sqrt : Q -> Q) (curve : Bezier2D.BezierCurve) (numSegments : nat) (s : Q) :
  increasing (Bezier2D.cumulativeLengths sqrt curve numSegments) ->
  0 <= s -> s < Bezier2D.curveLength sqrt curve numSegments ->
  exists r,
    Bezier2D.reparametrizeCurveByArcLength sqrt curve numSegments s = Some r /\
    r == s / Bezier2D.curveLength sqrt curve numSegments.
Proof.
  intros Hinc Hs0 HsL.
  destruct (cumulativeLengths_shape sqrt curve numSegments) as (HL & Hlen & H0).
  assert (HLne : ~ Bezier2D.curveLength sqrt curve numSegments == 0) by lra.
  assert (Hn : (2 <= length (Bezier2D.cumulativeLengths sqrt curve numSegments))%nat).
  { rewrite Hlen. destruct numSegments as [|n]; [|lia].
    exfalso. change (Bezier2D.curveLength sqrt curve 0) with 0 in HsL. lra. }
  destruct (binarySearch_inside _ s Hinc Hn H0 Hs0) as (a & b & Ha & Hb & Hle & Hlt);
    [rewrite <- HL; exact HsL|].
  destruct (normalizedLengths_entry sqrt curve numSegments _ a HLne Ha) as (t1 & Ht1 & E1).
  destruct (normalizedLengths_entry sqrt curve numSegments _ b HLne Hb) as (t2 & Ht2 & E2).
  unfold Bezier2D.reparametrizeCurveByArcLength. cbv zeta.
  rewrite Ht1, Ht2, Ha, Hb.
  assert (Hd : ~ b - a == 0) by lra.
  rewrite (qdiv_nonzero _ _ Hd).
  eexists. split; [reflexivity|].
  unfold Bezier2D.lerp. rewrite E1, E2. field. split; assumption.
Qed.

Lemma increasing_three (a b c : Q) : a < b -> b < c -> increasing [a; b; c].
Proof.
  intros Hab Hbc i x y Hx Hy.
  destruct i as [|[|[|i]]]; cbn in Hx, Hy; try discriminate Hy;
    injection Hx as <-; injection Hy as <-; assumption.
Qed.

Lemma reparametrizeCurveByArcLength_is_fraction_witness :
  let curve :=
    Bezier2D.mkCurve (Bezier2D.mkPoint 0 0) (Bezier2D.mkPoint 1 0)
                     (Bezier2D.mkPoint 2 0) (Bezier2D.mkPoint 3 0) in
  exists r,
    Bezier2D.reparametrizeCurveByArcLength rationalSqrt curve 2 1 = Some r /\
    r == 1 / Bezier2D.curveLength rationalSqrt curve 2.
Proof.
  cbv zeta.
  apply (reparametrizeCurveByArcLength_is_fraction rationalSqrt
           (Bezier2D.mkCurve (Bezier2D.mkPoint 0 0) (Bezier2D.mkPoint 1 0)
                             (Bezier2D.mkPoint 2 0) (Bezier2D.mkPoint 3 0)) 2 1).
  - match goal with
    | |- increasing ?l =>
        let l' := eval vm_compute in l in change (increasing l')
    end.
    apply increasing_three; reflexivity.
  - discriminate.
  - apply Qlt_bool_iff. vm_compute. reflexivity.
Defined.

Lemma lerp_amount_eq (a b : Vec2.t) (amount amount' : Q) :
  amount == amount' -> Vec2.lerp a b amount =v= Vec2.lerp a b amount'.
Proof. intros H. vec_unfold. rewrite H. split; reflexivity. Qed.

(** X3.  With two points the segment chain is [lerp] between them for
    every t in [0,1]; with one point it is constant, and with no point it
    is the zero vector, for every t. *)
Theorem LineSegmentsInterpolator_short_lists (a b : Vec2.t) (t : Q) :
  (0 <= t <= 1 ->
   exists v, LineSegmentsInterpolator [a; b] t = Some v /\ v =v= Vec2.lerp a b t) /\
  LineSegmentsInterpolator [a] t = Some a /\
  LineSegmentsInterpolator [] t = Some Vec2.zero.
Proof.
  split; [|split; reflexivity].
  intros [H0 H1].
  destruct (Qlt_le_dec 0 t) as [Hp|Hn]; [destruct (Qlt_le_dec t 1) as [Hq|Hq]|].
  - assert (Hc : (1 <= 1)%Z) by lia.
    pose proof (segmentIndex_bounds t 1 Hp Hq Hc) as Hi.
    pose proof (subT_fraction t 1 Hp Hq Hc) as Hs.
    assert (Ei : Qfloor (t / (1 / inject_Z 1)) = 0%Z) by lia.
    unfold LineSegmentsInterpolator. cbn [length Z.of_nat].
    change (Z.pos (Pos.of_succ_nat 1) - 1)%Z with 1%Z. cbn [Z.ltb Z.compare Pos.compare].
    rewrite remap_inside by assumption. cbn [index parameter].
    rewrite Ei. cbn [get Z.ltb Z.compare Z.to_nat nth_error Z.add Pos.to_nat Pos.iter_op Nat.add].
    eexists. split; [reflexivity|].
    apply lerp_amount_eq. rewrite Hs, Ei. change (inject_Z 1) with 1.
    change (inject_Z 0) with 0. field.
  - destruct (segment_chain_high [a; b] t) as (v & Hv & Ev); [cbn; lia | exact Hq|].
    exists v. split; [exact Hv|]. eapply eqv_trans; [exact Ev|].
    cbn [last]. apply eqv_sym. eapply eqv_trans; [apply lerp_amount_eq|apply lerp_1]. lra.
  - destruct (segment_chain_low [a; b] t) as (v & Hv & Ev); [cbn; lia | exact Hn|].
    exists v. split; [exact Hv|]. eapply eqv_trans; [exact Ev|].
    cbn [hd]. apply eqv_sym. eapply eqv_trans; [apply lerp_amount_eq|apply lerp_0]. lra.
Qed.

Lemma LineSegmentsInterpolator_short_lists_witness :
  exists v, LineSegmentsInterpolator [Vec2.mk 0 0; Vec2.mk 4 2] (1 # 4) = Some v /\
            v =v= Vec2.lerp (Vec2.mk 0 0) (Vec2.mk 4 2) (1 # 4).
Proof.
  destruct (LineSegmentsInterpolator_short_lists (Vec2.mk 0 0) (Vec2.mk 4 2) (1 # 4))
    as [Hin _].
  apply Hin. split; discriminate.
Defined.

(** * The code on doubles *)

Lemma forallb_below (f : nat -> bool) (n i : nat) :
  forallb f (seq 0 n) = true -> (i < n)%nat -> f i = true.
Proof.
  intros H Hi. rewrite forallb_forall in H. apply H, in_seq. lia.
Qed.

(** ** Viewport transform *)

(** C2, as stated, fails on doubles: the source rectangle
    (1e16, 0, 1, 1) has width 1 and height 1, yet its far corner
    1e16 + 1 rounds to 1e16, so the extent the code divides by is 0, the
    guard of [componentDiv] gives scale 0, and the far corner is sent to
    x = 0 where the destination (0, 0, 100, 100) has its far corner at
    x = 100. *)
Lemma viewportTransformation_absorbed_extent :
  let R := F64.create (F64.ofZ (10 ^ 16)) F64.zero F64.one F64.one in
  let S := F64.create F64.zero F64.zero (F64.ofZ 100) (F64.ofZ 100) in
  F64.eqb (F64.width R) F64.zero = false /\
  F64.eqb (F64.height R) F64.zero = false /\
  F64.x (F64.vsub (F64.farCorner R) (F64.origin R)) = F64.zero /\
  F64.mulVec2 (F64.viewportTransformation R S) (F64.farCorner R)
    = F64.mkVec2 F64.zero (F64.ofZ 100) /\
  F64.farCorner S = F64.mkVec2 (F64.ofZ 100) (F64.ofZ 100) /\
  F64.eqb (F64.x (F64.mulVec2 (F64.viewportTransformation R S) (F64.farCorner R)))
          (F64.x (F64.farCorner S)) = false.
Proof. cbv zeta. repeat split; vm_compute; reflexivity. Qed.

(** ** Segment chain *)

(** C9, on the code.  On doubles, t = 0.9999999999999999 is strictly
    between 0 and 1, and with 3 segments [1 / count] rounds below 1/3 and
    [t / (1 / count)] rounds up to 3: the index is 3 = count, not at most
    count - 1 (the exact quotient has floor 2), the sub-parameter is
    0.9999999999999998, and the segment chain over any four points reads
    pts[4], which is undefined, so that [lerp] throws. *)
Theorem remapParameterToSubRange_index_reaches_count :
  let r := F64.remapParameterToSubRange justBelowOne (F64.ofZ 3) in
  F64.leb justBelowOne F64.zero = false /\
  F64.leb F64.one justBelowOne = false /\
  F64.div justBelowOne (F64.div F64.one (F64.ofZ 3)) = F64.ofZ 3 /\
  F64.toIndex (F64.index r) = Some 3%Z /\
  (exists q, F64.toQ justBelowOne = Some q /\
             index (remapParameterToSubRange q 3) = 2%Z) /\
  forall a b c d : F64.Vec2,
    F64.read [a; b; c; d] (F64.add (F64.index r) F64.one) = None /\
    F64.LineSegmentsInterpolator [a; b; c; d] justBelowOne = None.
Proof.
  cbv zeta. repeat split; try (vm_compute; reflexivity).
  eexists. split; vm_compute; reflexivity.
Qed.

Lemma dyadic_knots_check :
  forallb
    (fun m =>
       forallb
         (fun k =>
            let count := F64.ofZ (2 ^ Z.of_nat m) in
            let r := F64.remapParameterToSubRange
                       (F64.div (F64.ofZ (Z.of_nat k)) count) count in
            F64.eqb (F64.parameter r) F64.zero
            && F64.eqb (F64.index r) (F64.ofZ (Z.of_nat k))
            || (k =? 0)%nat || (2 ^ m <=? k)%nat)
         (seq 0 (2 ^ 10)))
    (seq 0 11) = true.
Proof. vm_compute. reflexivity. Qed.

Lemma count_power_of_two (pts : list Vec2.t) (m : nat) :
  length pts = (2 ^ m + 1)%nat ->
  (Z.of_nat (length pts) - 1 = 2 ^ Z.of_nat m)%Z.
Proof.
  intros H. rewrite H, Nat2Z.inj_add, Nat2Z.inj_pow. cbn. lia.
Qed.

(** X30.  For a chain of 2^m segments with m <= 10 (2, 3, 5, ..., 1025
    points), where k / count and 1 / count are exact on doubles: at every
    interior knot t = k / count the remap on doubles gives index k and
    sub-parameter 0, and the chain's value at every knot is the control
    point of index k. *)
Theorem LineSegmentsInterpolator_through_dyadic_knots
    (pts : list Vec2.t) (m : nat) (k : nat) (p : Vec2.t) :
  (m <= 10)%nat -> length pts = (2 ^ m + 1)%nat ->
  get pts (Z.of_nat k) = Some p ->
  (exists v,
     LineSegmentsInterpolator pts (inject_Z (Z.of_nat k) / inject_Z (2 ^ Z.of_nat m))
     = Some v /\ v =v= p) /\
  ((0 < k < 2 ^ m)%nat ->
   let count := F64.ofZ (2 ^ Z.of_nat m) in
   let r := F64.remapParameterToSubRange
              (F64.div (F64.ofZ (Z.of_nat k)) count) count in
   F64.eqb (F64.parameter r) F64.zero = true /\
   F64.eqb (F64.index r) (F64.ofZ (Z.of_nat k)) = true).
Proof.
  intros Hm Hlen Hk. split.
  - rewrite <- (count_power_of_two pts m Hlen).
    apply LineSegmentsInterpolator_through_knots; [|exact Hk].
    rewrite Hlen. pose proof (Nat.pow_nonzero 2 m). lia.
  - intros Hin. cbv zeta.
    pose proof (forallb_below _ 11 m dyadic_knots_check) as Hc.
    cbv beta in Hc. specialize (Hc ltac:(lia)).
    assert (Hk10 : (k < 2 ^ 10)%nat).
    { apply Nat.lt_le_trans with (2 ^ m)%nat; [lia|].
      apply Nat.pow_le_mono_r; lia. }
    pose proof (forallb_below _ (2 ^ 10) k Hc Hk10) as Hck.
    cbv beta zeta in Hck.
    destruct (Nat.eqb_spec k 0) as [E|_]; [lia|].
    destruct (Nat.leb_spec (2 ^ m) k) as [E|_]; [lia|].
    rewrite !orb_false_r in Hck. apply andb_true_iff in Hck. exact Hck.
Qed.

Lemma LineSegmentsInterpolator_through_dyadic_knots_witness :
  let pts := [Vec2.mk 0 0; Vec2.mk 1 0; Vec2.mk 3 0; Vec2.mk 4 0; Vec2.mk 9 9] in
  (exists v,
     LineSegmentsInterpolator pts (inject_Z (Z.of_nat 3) / inject_Z (2 ^ Z.of_nat 2))
     = Some v /\ v =v= Vec2.mk 4 0) /\
  F64.eqb (F64.parameter
             (F64.remapParameterToSubRange
                (F64.div (F64.ofZ (Z.of_nat 3)) (F64.ofZ (2 ^ Z.of_nat 2)))
                (F64.ofZ (2 ^ Z.of_nat 2)))) F64.zero = true /\
  F64.eqb (F64.index
             (F64.remapParameterToSubRange
                (F64.div (F64.ofZ (Z.of_nat 3)) (F64.ofZ (2 ^ Z.of_nat 2)))
                (F64.ofZ (2 ^ Z.of_nat 2)))) (F64.ofZ (Z.of_nat 3)) = true.
Proof.
  cbv zeta.
  destruct (LineSegmentsInterpolator_through_dyadic_knots
              [Vec2.mk 0 0; Vec2.mk 1 0; Vec2.mk 3 0; Vec2.mk 4 0; Vec2.mk 9 9]
              2 3 (Vec2.mk 4 0)) as [Hv Hf]; [lia | reflexivity | reflexivity |].
  split; [exact Hv|]. apply Hf. cbn. lia.
Defined.

(** ** Factorials and binomial coefficients *)

Lemma Zfact_fact (n : nat) : Zfact n = Z.of_nat (fact n).
Proof.
  induction n as [|n IH]; [reflexivity|].
  change (Zfact (S n)) with (Z.of_nat (S n) * Zfact n)%Z.
  change (fact (S n)) with (S n * fact n)%nat.
  rewrite IH, Nat2Z.inj_mul. reflexivity.
Qed.

Lemma factorial64_check :
  forallb
    (fun n =>
       match F64.toQ (F64.factorial n) with
       | Some q => Qeq_bool q (inject_Z (Zfact n))
       | None => false
       end)
    (seq 0 23) = true.
Proof. vm_compute. reflexivity. Qed.

(** X20.  On doubles [factorial(n)] is exactly n! for every n <= 22, the
    value of the exact function.  From n = 23 on it is rounded
    (factorial(23) is 25852016738884978212864, not 23!), and
    factorial(171) is Infinity. *)
Theorem factorial_exact_up_to_22 (n : nat) :
  (n <= 22)%nat ->
  (exists q,
     F64.toQ (F64.factorial n) = Some q /\
     q == inject_Z (Z.of_nat (fact n)) /\ q == factorial n) /\
  (exists q,
     F64.toQ (F64.factorial 23) = Some q /\
     q == 25852016738884978212864 /\ ~ q == factorial 23) /\
  F64.factorial 171 = F64.Infinity.
Proof.
  intros Hn. split; [|split].
  - pose proof (forallb_below _ 23 n factorial64_check) as Hc.
    cbv beta in Hc. specialize (Hc ltac:(lia)).
    destruct (F64.toQ (F64.factorial n)) as [q|]; [|discriminate Hc].
    apply Qeq_bool_iff in Hc. rewrite Zfact_fact in Hc.
    exists q. split; [reflexivity|]. split; [exact Hc|].
    rewrite Hc. symmetry. apply factorial_is_fact.
  - eexists. split; [vm_compute; reflexivity|].
    split; [vm_compute; reflexivity|].
    intros H. vm_compute in H. discriminate H.
  - vm_compute. reflexivity.
Qed.

Lemma factorial_exact_up_to_22_witness :
  exists q,
    F64.toQ (F64.factorial 22) = Some q /\
    q == inject_Z (Z.of_nat (fact 22)) /\ q == factorial 22.
Proof.
  destruct (factorial_exact_up_to_22 22) as [H _]; [lia|]. exact H.
Defined.

Lemma binomial64_check :
  forallb
    (fun n =>
       forallb
         (fun k =>
            match F64.toQ (F64.binomialCoefficient n k) with
            | Some q => Qeq_bool q (binomialCoefficient n k)
            | None => false
            end)
         (seq 0 (S n)))
    (seq 0 23) = true.
Proof. vm_compute. reflexivity. Qed.

(** X21.  On doubles [binomialCoefficient(n, k)] is exact for
    k <= n <= 22: it is the number C with C k! (n - k)! = n!, symmetric
    in k and n - k, and obeying Pascal's rule up to row 22.  Beyond that
    range it is rounded (binomialCoefficient(30, 15) is not an integer) and
    binomialCoefficient(171, 0) is NaN. *)
Theorem binomialCoefficient_exact_up_to_22 (n k : nat) :
  (n <= 22)%nat -> (k <= n)%nat ->
  (exists q,
     F64.toQ (F64.binomialCoefficient n k) = Some q /\
     q == binomialCoefficient n k /\
     q * (factorial k * factorial (n - k)) == factorial n /\
     q == binomialCoefficient n (n - k) /\
     ((k < n)%nat -> (n < 22)%nat ->
      exists q1 q2,
        F64.toQ (F64.binomialCoefficient (S n) (S k)) = Some q1 /\
        F64.toQ (F64.binomialCoefficient n (S k)) = Some q2 /\
        q1 == q + q2)) /\
  F64.toIndex (F64.binomialCoefficient 30 15) = None /\
  F64.binomialCoefficient 171 0 = F64.NaN.
Proof.
  intros Hn Hk.
  assert (Hpair : forall a b, (a <= 22)%nat -> (b <= a)%nat ->
            exists q, F64.toQ (F64.binomialCoefficient a b) = Some q /\
                      q == binomialCoefficient a b).
  { intros a b Ha Hb.
    pose proof (forallb_below _ 23 a binomial64_check) as Hc.
    cbv beta in Hc. specialize (Hc ltac:(lia)).
    pose proof (forallb_below _ (S a) b Hc) as Hd.
    cbv beta in Hd. specialize (Hd ltac:(lia)).
    destruct (F64.toQ (F64.binomialCoefficient a b)) as [q|]; [|discriminate Hd].
    exists q. split; [reflexivity | apply Qeq_bool_iff, Hd]. }
  destruct (binomialCoefficient_rules n k) as (Hle & _ & _ & Hpascal & _).
  destruct (Hle Hk) as [Hprod Hsym].
  split; [|split; vm_compute; reflexivity].
  destruct (Hpair n k Hn Hk) as (q & Hq & Eq).
  exists q. split; [exact Hq|]. split; [exact Eq|].
  split; [rewrite Eq; exact Hprod|]. split; [rewrite Eq; exact Hsym|].
  intros Hlt Hn22.
  destruct (Hpair (S n) (S k)) as (q1 & Hq1 & E1); [lia | lia|].
  destruct (Hpair n (S k)) as (q2 & Hq2 & E2); [lia | lia|].
  exists q1, q2. split; [exact Hq1|]. split; [exact Hq2|].
  rewrite E1, E2, Eq. apply Hpascal, Hlt.
Qed.

Lemma binomialCoefficient_exact_up_to_22_witness :
  exists q,
    F64.toQ (F64.binomialCoefficient 22 11) = Some q /\
    q == binomialCoefficient 22 11 /\
    q * (factorial 11 * factorial (22 - 11)) == factorial 22.
Proof.
  destruct (binomialCoefficient_exact_up_to_22 22 11) as [(q & Hq & E & Hp & _) _];
    [lia | lia|].
  exists q. split; [exact Hq|]. split; [exact E | exact Hp].
Defined.

(** ** Bezier end points *)

Lemma nth_factorials64 (n : nat) :
  (n <= 170)%nat -> nth n factorials64 F64.NaN = F64.factorial n.
Proof.
  intros H. unfold factorials64.
  rewrite (nth_indep _ F64.NaN (F64.factorial 0)) by (rewrite length_map, length_seq; lia).
  rewrite (map_nth F64.factorial (seq 0 171) 0%nat n), seq_nth by lia.
  reflexivity.
Qed.

Lemma weights64_check :
  forallb
    (fun n =>
       forallb
         (fun k =>
            F64.finite
              (F64.div (nth n factorials64 F64.NaN)
                       (F64.mul (nth k factorials64 F64.NaN)
                                (nth (n - k) factorials64 F64.NaN))))
         (seq 0 (S n))
       && F64.eqb (F64.div (nth n factorials64 F64.NaN)
                           (F64.mul (nth 0 factorials64 F64.NaN)
                                    (nth (n - 0) factorials64 F64.NaN))) F64.one
       && F64.eqb (F64.div (nth n factorials64 F64.NaN)
                           (F64.mul (nth n factorials64 F64.NaN)
                                    (nth (n - n) factorials64 F64.NaN))) F64.one)
    (seq 0 171) = true.
Proof. vm_compute. reflexivity. Qed.

(** X22.  For 1 to 171 control points [evaluateBezier] gives the first
    control point at t = 0 and the last at t = 1; on doubles, with n + 1
    <= 171 points, the weights binomialCoefficient(n, 0) and
    binomialCoefficient(n, n) are exactly 1 and every weight
    binomialCoefficient(n, k) is finite.  With 172 points factorial(171)
    is Infinity and the two end weights are NaN. *)
Theorem evaluateBezier_endpoints_up_to_171 (p : Point3D) (rest : list Point3D) :
  (length (p :: rest) <= 171)%nat ->
  eqp (evaluateBezier (p :: rest) 0) p /\
  eqp (evaluateBezier (p :: rest) 1) (last (p :: rest) p) /\
  F64.eqb (F64.binomialCoefficient (length rest) 0) F64.one = true /\
  F64.eqb (F64.binomialCoefficient (length rest) (length rest)) F64.one = true /\
  (forall k, (k <= length rest)%nat ->
     F64.finite (F64.binomialCoefficient (length rest) k) = true) /\
  F64.binomialCoefficient 171 0 = F64.NaN /\
  F64.binomialCoefficient 171 171 = F64.NaN.
Proof.
  intros Hlen. cbn [length] in Hlen.
  destruct (evaluateBezier_endpoints p rest 0) as (H0 & H1 & _).
  split; [exact H0|]. split; [exact H1|].
  pose proof (forallb_below _ 171 (length rest) weights64_check) as Hc.
  cbv beta in Hc. specialize (Hc ltac:(lia)).
  apply andb_true_iff in Hc. destruct Hc as [Hc Hlast].
  apply andb_true_iff in Hc. destruct Hc as [Hfin Hfirst].
  unfold F64.binomialCoefficient.
  rewrite Nat.sub_0_r in Hfirst. rewrite Nat.sub_diag in Hlast.
  rewrite (nth_factorials64 (length rest)), (nth_factorials64 0) in Hfirst, Hlast by lia.
  rewrite Nat.sub_0_r, Nat.sub_diag.
  split; [exact Hfirst|]. split; [exact Hlast|].
  split; [|split; vm_compute; reflexivity].
  intros k Hk.
  pose proof (forallb_below _ (S (length rest)) k Hfin) as Hd.
  cbv beta in Hd. specialize (Hd ltac:(lia)).
  rewrite (nth_factorials64 (length rest)), (nth_factorials64 k),
    (nth_factorials64 (length rest - k)) in Hd by lia.
  exact Hd.
Qed.

Lemma evaluateBezier_endpoints_up_to_171_witness :
  eqp (evaluateBezier [mkPoint3D 0 0 0; mkPoint3D 1 2 1; mkPoint3D 2 0 2] 0)
      (mkPoint3D 0 0 0) /\
  eqp (evaluateBezier [mkPoint3D 0 0 0; mkPoint3D 1 2 1; mkPoint3D 2 0 2] 1)
      (mkPoint3D 2 0 2).
Proof.
  destruct (evaluateBezier_endpoints_up_to_171 (mkPoint3D 0 0 0)
              [mkPoint3D 1 2 1; mkPoint3D 2 0 2]) as (H0 & H1 & _); [cbn; lia|].
  split; [exact H0 | exact H1].
Defined.
